(** * vanilla-charts: scales, ticks, pie slices and the chart wrapper

    A shallow embedding of the layout core of the library
    ([core/scales.js], [core/ticks.js], [core/ChartWrapper.js]) and of the
    slice computation of [PieChart/PieChart.js].

    Numbers.  A JavaScript number is modelled by an exact rational ([Q]):
    sums, products and quotients are the mathematical ones, so rounding
    error and overflow of the binary64 format are outside the model.
    Equality of numbers is [Qeq] ([==]).  A quotient whose divisor is zero
    is not a finite number in JavaScript; where a claim is about exactly
    that, the quotient is taken with [js_div], which returns [None] there. *)

From Stdlib Require Import QArith Qround Qabs ZArith Lia Lqa List Sorted.
From stdpp Require Import gmap strings list sorting.
Import ListNotations.

Local Open Scope Q_scope.

(* ===================================================================== *)
(** ** JavaScript numbers and the [Math] functions the code calls *)
(* ===================================================================== *)

Module Js.

(** [x || 1] on a number: [0] is falsy, every other finite number is
    truthy. *)
Definition or_one (x : Q) : Q := if Qeq_bool x 0 then 1 else x.

(** [a / b]; [None] stands for the non-finite results ([NaN],
    [Infinity], [-Infinity]) a zero divisor gives. *)
Definition js_div (a b : Q) : option Q :=
  if Qeq_bool b 0 then None else Some (a / b).

(** [a < b] (and [b > a]) on numbers. *)
Definition lt (a b : Q) : bool := negb (Qle_bool b a).

(** [Math.max] and [Math.min] on two numbers. *)
Definition Math_max (a b : Q) : Q := if Qle_bool a b then b else a.
Definition Math_min (a b : Q) : Q := if Qle_bool a b then a else b.

(** [Math.floor], [Math.ceil]: the results are integers, kept as numbers. *)
Definition Math_floor (x : Q) : Q := inject_Z (Qfloor x).
Definition Math_ceil (x : Q) : Q := inject_Z (Qceiling x).

(** [Math.round]: the nearest integer, a tie going up ([floor (x + 1/2)]). *)
Definition Math_round (x : Q) : Q := inject_Z (Qfloor (x + (1 # 2))).

(** [Math.PI]: the binary64 number nearest to pi, which is the rational
    884279719003555 / 2^48. *)
Definition Math_PI : Q := 884279719003555 # 281474976710656.

(** A number as a caller can pass it: finite, or one of the three
    non-finite values. *)
Inductive number : Type :=
| Finite (q : Q)
| NaN
| PosInfinity
| NegInfinity.

(** [Number.isFinite]. *)
Definition Number_isFinite (x : number) : bool :=
  match x with Finite _ => true | _ => false end.

(** [a !== b] where [a] is an array read that may be [undefined]. *)
Definition strict_ne (a : option Q) (b : Q) : bool :=
  match a with
  | Some x => negb (Qeq_bool x b)
  | None => true
  end.

(** [new Map(pairs)]: the pairs are inserted from left to right, so a
    later pair with the same key replaces an earlier one. *)
Definition new_Map (pairs : list (string * Q)) : gmap string Q :=
  foldl (fun m kv => <[kv.1 := kv.2]> m) ∅ pairs.

End Js.

(* ===================================================================== *)
(** ** core/scales.js *)
(* ===================================================================== *)

Module Scales.
Import Js.

(** [linearScale(dMin, dMax, rMin, rMax)] returns [v => rMin + ((v - dMin) / d) * r]
    with [d = dMax - dMin || 1] and [r = rMax - rMin]. *)
Definition linearScale (dMin dMax rMin rMax : Q) : Q -> option Q :=
  let d := or_one (dMax - dMin) in
  let r := rMax - rMin in
  fun v => match js_div (v - dMin) d with
           | Some q => Some (rMin + q * r)
           | None => None
           end.

(** The object [bandScale] returns.  [entries] is not a property of the
    JavaScript object: it records the pairs handed to [new Map], the
    position computed for each index, so that the layout can be stated
    band by band. *)
Record BandScale : Type := {
  getX : string -> Q;
  bandWidth : Q;
  gapWidth : Q;
  entries : list (string * Q)
}.

(** [n = Math.max(labels.length, 1)]. *)
Definition bandCount (labels : list string) : Z :=
  Z.max (Z.of_nat (length labels)) 1.

(** The default value of the parameter [gapRatio = 0.2]. *)
Definition gapRatio_or_default (gapRatio : option Q) : Q :=
  match gapRatio with Some g => g | None => 2 # 10 end.

(** [bandScale(labels, rMin, rMax, gapRatio = 0.2)]. *)
Definition bandScale (labels : list string) (rMin rMax : Q) (gapRatio : option Q)
  : BandScale :=
  let gapRatio := gapRatio_or_default gapRatio in
  let n := inject_Z (bandCount labels) in
  let total := rMax - rMin in
  let totalGap := total * gapRatio in
  let gapWidth := totalGap / (n + 1) in
  let barWidth := (total - totalGap) / n in
  let offset := rMin + gapWidth in
  let pairs :=
    imap (fun i lab => (lab, offset + inject_Z (Z.of_nat i) * (barWidth + gapWidth)))
         labels in
  let map := new_Map pairs in
  {| getX := fun lab => match map !! lab with Some x => x | None => 0 end;
     bandWidth := barWidth;
     gapWidth := gapWidth;
     entries := pairs |}.

End Scales.

(* ===================================================================== *)
(** ** core/ticks.js *)
(* ===================================================================== *)

Module Ticks.
Import Js.

(** The [ticks] argument of [makeTicks] when it is not falsy: an array,
    an object with a [step] property, an object with a [count] property
    (and no [step]), or any other object. *)
Inductive YTicks : Type :=
| TicksArray (values : list Q)
| TicksStep (step : Q)
| TicksCount (count : Q)
| TicksOther.

(** [for (let v = start; v <= yMax; v += step) arr.push(v)].  Each
    iteration uses one unit of [fuel]; [None] means the fuel ran out
    before the loop condition failed. *)
Fixpoint step_loop (fuel : nat) (v yMax step : Q) : option (list Q) :=
  if Qle_bool v yMax then
    match fuel with
    | O => None
    | S fuel' =>
        match step_loop fuel' (v + step) yMax step with
        | Some arr => Some (v :: arr)
        | None => None
        end
    end
  else Some [].

(** [if (arr[0] !== yMin) arr.unshift(yMin)]. *)
Definition unshift_min (yMin : Q) (arr : list Q) : list Q :=
  if strict_ne (head arr) yMin then yMin :: arr else arr.

(** [if (arr[arr.length - 1] !== yMax) arr.push(yMax)]. *)
Definition push_max (yMax : Q) (arr : list Q) : list Q :=
  if strict_ne (last arr) yMax then arr ++ [yMax] else arr.

(** The body of [for (let i = 0; i <= count; i++)]. *)
Definition count_tick (yMin yMax : Q) (count : Z) (i : nat) : Q :=
  let t := yMin + ((yMax - yMin) * inject_Z (Z.of_nat i)) / inject_Z count in
  Math_round t.

(** [makeTicks(yMin, yMax, ticks)]; [fuel] bounds the iterations of the
    loop of the [step] branch. *)
Definition makeTicks (fuel : nat) (yMin yMax : Q) (ticks : option YTicks)
  : option (list Q) :=
  match ticks with
  | None =>
      let mid := Math_round ((yMin + yMax) / 2) in
      Some [yMin; mid; yMax]
  | Some (TicksArray values) => Some values
  | Some (TicksStep s) =>
      let step := Math_max 1 s in
      let start := Math_ceil (yMin / step) * step in
      match step_loop fuel start yMax step with
      | Some arr => Some (push_max yMax (unshift_min yMin arr))
      | None => None
      end
  | Some (TicksCount c) =>
      let count := Z.max 1 (Qfloor c) in
      Some (map (count_tick yMin yMax count) (seq 0 (Z.to_nat count + 1)))
  | Some TicksOther => Some [yMin; yMax]
  end.

(** *** Notions used to state the properties *)


End Ticks.

(* ===================================================================== *)
(** ** PieChart/PieChart.js: the slice computation of [render] *)
(* ===================================================================== *)

Module Pie.
Import Js.

(** [TAU = Math.PI * 2]. *)
Definition TAU : Q := Math_PI * 2.

(** A record of the [data] array. *)
Record PieDatum : Type := {
  label : string;
  value : number
}.

(** A record after the [map] of [render]: its value is a finite number. *)
Record ValidDatum : Type := {
  v_label : string;
  v_value : Q
}.

Record Slice : Type := {
  s_label : string;
  s_value : Q;
  s_start : Q;
  s_end : Q;
  s_fraction : Q
}.

(** [Number.isFinite(d.value) ? Math.max(0, d.value) : 0]. *)
Definition clampValue (x : number) : Q :=
  match x with
  | Finite q => Math_max 0 q
  | _ => 0
  end.

(** [currentData.map(d => ({...d, value: ...})).filter(d => d.value > 0)]. *)
Definition validData (data : list PieDatum) : list ValidDatum :=
  List.filter (fun d => lt 0 (v_value d))
         (map (fun d => {| v_label := label d; v_value := clampValue (value d) |}) data).

(** [validData.reduce((acc, d) => acc + d.value, 0)]. *)
Definition totalValue (valid : list ValidDatum) : Q :=
  foldl (fun acc d => acc + v_value d) 0 valid.

(** The [forEach] that pushes the slices; [angle] is the running angle. *)
Fixpoint slice_loop (total angle : Q) (valid : list ValidDatum) : list Slice :=
  match valid with
  | [] => []
  | d :: rest =>
      let fraction := v_value d / total in
      let span := fraction * TAU in
      let start := angle in
      let end_ := angle + span in
      {| s_label := v_label d; s_value := v_value d;
         s_start := start; s_end := end_; s_fraction := fraction |}
      :: slice_loop total end_ rest
  end.

(** The [slices] array of [render]. *)
Definition computeSlices (data : list PieDatum) : list Slice :=
  let valid := validData data in
  let total := totalValue valid in
  if (0 <? length valid)%nat && lt 0 total
  then slice_loop total (- Math_PI / 2) valid
  else [].

(** What [render] puts into the [svg] element: the grey placeholder
    circle, or the sectors of the slices (with the centre and the two
    radii they are drawn with). *)
Inductive Scene : Type :=
| EmptyRing (cx cy r : Q)
| Sectors (cx cy radius innerR : Q) (slices : list Slice).

(** [render], for the current data and width; [legendShow] is
    [legend?.show]. *)
Definition render (data : list PieDatum) (currentWidth height innerRadiusRatio : Q)
           (legendShow : bool) : Scene :=
  let slices := computeSlices data in
  let paddingTop := if legendShow then 20 else 10 in
  let padding := 10 in
  let availableWidth := currentWidth - padding * 2 in
  let availableHeight := height - paddingTop - padding in
  let radius := Math_min availableWidth availableHeight / 2 in
  let cx := padding + availableWidth / 2 in
  let cy := paddingTop + availableHeight / 2 in
  let ratio := Math_max 0 (Math_min innerRadiusRatio (95 # 100)) in
  let innerR := Math_max 0 (Math_min (radius * ratio) (radius - 2)) in
  if (length slices =? 0)%nat
  then EmptyRing cx cy radius
  else Sectors cx cy radius innerR slices.

(** *** Notions used to state the properties *)

(** A record value that is a finite number above zero. *)
Definition positive_value (x : number) : Prop :=
  exists q, x = Finite q /\ 0 < q.

(** The test of the [filter], on a record of the input. *)
Definition keep (d : PieDatum) : bool := lt 0 (clampValue (value d)).

End Pie.

(* ===================================================================== *)
(** ** core/ChartWrapper.js *)
(* ===================================================================== *)

Module ChartWrapper.
Import Js.

Record Padding : Type := {
  top : Q;
  right : Q;
  bottom : Q;
  left : Q
}.

(** [Partial<Padding>]: the [framePadding] option. *)
Record PartialPadding : Type := {
  p_top : option Q;
  p_right : option Q;
  p_bottom : option Q;
  p_left : option Q
}.

(** The options object of [createChartWrapper], without the [render]
    callback; [None] is a property that is absent. *)
Record Options : Type := {
  width : option Q;
  height : option Q;
  framePadding : option PartialPadding;
  minWidth : option Q;
  defaultWidth : option Q
}.

(** One invocation of the [render] callback: the width the [svg] element
    was given and the context passed to the callback. *)
Record RenderCall : Type := {
  outerW : Q;
  innerWidth : Q;
  innerHeight : Q
}.

(** The variables the closures of [createChartWrapper] share, and what
    the host holds for it.  [timers] is the host's queue of pending
    [setTimeout] calls, each with its id and the milliseconds left; the
    callback of every one of them is [doRender].  [calls] lists the
    invocations of [render], oldest first. *)
Record Wrapper : Type := {
  pad : Padding;
  w_height : Q;
  w_minWidth : Q;
  currentWidth : Q;
  observing : bool;
  resizeTimer : option positive;
  timers : list (positive * nat);
  nextTimerId : positive;
  calls : list RenderCall;
  mounted : bool
}.

Definition defaultPadding : Padding :=
  {| top := 24; right := 24; bottom := 40; left := 40 |}.

Definition or_default (o : option Q) (d : Q) : Q :=
  match o with Some x => x | None => d end.

(** [{ ...defaultPadding, ...(framePadding ?? {}) }]. *)
Definition mergePadding (fp : option PartialPadding) : Padding :=
  match fp with
  | None => defaultPadding
  | Some p =>
      {| top := or_default (p_top p) (top defaultPadding);
         right := or_default (p_right p) (right defaultPadding);
         bottom := or_default (p_bottom p) (bottom defaultPadding);
         left := or_default (p_left p) (left defaultPadding) |}
  end.

(** [!width]: the option is absent or is the number [0]. *)
Definition not_width (w : option Q) : bool :=
  match w with
  | None => true
  | Some x => Qeq_bool x 0
  end.

(** [doRender]. *)
Definition doRender (s : Wrapper) : Wrapper :=
  let outerW := currentWidth s in
  let innerWidth := outerW - left (pad s) - right (pad s) in
  let innerHeight := w_height s - top (pad s) - bottom (pad s) in
  {| pad := pad s; w_height := w_height s; w_minWidth := w_minWidth s;
     currentWidth := currentWidth s; observing := observing s;
     resizeTimer := resizeTimer s; timers := timers s;
     nextTimerId := nextTimerId s;
     calls := calls s ++ [{| outerW := outerW; innerWidth := innerWidth;
                             innerHeight := innerHeight |}];
     mounted := mounted s |}.

(** [clearTimeout(id)]. *)
Definition clearTimeout (id : positive) (q : list (positive * nat))
  : list (positive * nat) :=
  List.filter (fun t => negb (Pos.eqb (fst t) id)) q.

(** The body of the [for (const entry of entries)] loop of the observer
    callback, for an entry whose [contentRect.width] is [w]. *)
Definition onEntry (s : Wrapper) (w : Q) : Wrapper :=
  let newWidth := Math_max w (w_minWidth s) in
  if negb (Qeq_bool newWidth (currentWidth s)) then
    let cleared :=
      match resizeTimer s with
      | Some id => clearTimeout id (timers s)
      | None => timers s
      end in
    let id := nextTimerId s in
    {| pad := pad s; w_height := w_height s; w_minWidth := w_minWidth s;
       currentWidth := newWidth; observing := observing s;
       resizeTimer := Some id; timers := cleared ++ [(id, 100%nat)];
       nextTimerId := Pos.succ id;
       calls := calls s; mounted := mounted s |}
  else s.

(** The observer callback; it is delivered only while the observer
    exists and is connected. *)
Definition onResize (s : Wrapper) (entries : list Q) : Wrapper :=
  if observing s then foldl onEntry s entries else s.

(** [ms] milliseconds pass: the timeouts that are due run [doRender], in
    the order they were set; the others stay pending. *)
Definition elapse (s : Wrapper) (ms : nat) : Wrapper :=
  let due := List.filter (fun t => (snd t <=? ms)%nat) (timers s) in
  let waiting := List.filter (fun t => negb (snd t <=? ms)%nat) (timers s) in
  let s' :=
    {| pad := pad s; w_height := w_height s; w_minWidth := w_minWidth s;
       currentWidth := currentWidth s; observing := observing s;
       resizeTimer := resizeTimer s;
       timers := map (fun t => (fst t, (snd t - ms)%nat)) waiting;
       nextTimerId := nextTimerId s;
       calls := calls s; mounted := mounted s |} in
  foldl (fun st _ => doRender st) s' due.

(** [update()]. *)
Definition update (s : Wrapper) : Wrapper := doRender s.

(** [destroy()]: [if (resizeObserver) resizeObserver.disconnect();
    container.innerHTML = ""]. *)
Definition destroy (s : Wrapper) : Wrapper :=
  {| pad := pad s; w_height := w_height s; w_minWidth := w_minWidth s;
     currentWidth := currentWidth s; observing := false;
     resizeTimer := resizeTimer s; timers := timers s;
     nextTimerId := nextTimerId s;
     calls := calls s; mounted := false |}.

(** [createChartWrapper(container, options)]; [rectWidth] is the width
    [wrapper.getBoundingClientRect()] reports. *)
Definition createChartWrapper (o : Options) (rectWidth : Q) : Wrapper :=
  let height := or_default (height o) 360 in
  let minWidth := or_default (minWidth o) 320 in
  let defaultWidth := or_default (defaultWidth o) 640 in
  let pad := mergePadding (framePadding o) in
  let currentWidth0 := or_default (width o) defaultWidth in
  let currentWidth :=
    if not_width (width o) && lt 0 rectWidth
    then Math_max rectWidth minWidth
    else currentWidth0 in
  doRender
    {| pad := pad; w_height := height; w_minWidth := minWidth;
       currentWidth := currentWidth;
       observing := not_width (width o);
       resizeTimer := None; timers := [];
       nextTimerId := 1%positive;
       calls := []; mounted := true |}.

(** What can happen to a wrapper after it was created. *)
Inductive Event : Type :=
| Resize (entries : list Q)
| Elapse (ms : nat)
| Update
| Destroy.

Definition step (s : Wrapper) (e : Event) : Wrapper :=
  match e with
  | Resize entries => onResize s entries
  | Elapse ms => elapse s ms
  | Update => update s
  | Destroy => destroy s
  end.

Definition run (s : Wrapper) (es : list Event) : Wrapper := foldl step s es.

(** A burst of resize notifications: a width and the time until the
    next notification, for all but the last one. *)
Fixpoint burst (ws : list (Q * nat)) (wlast : Q) : list Event :=
  match ws with
  | [] => [Resize [wlast]]
  | (w, gap) :: rest => Resize [w] :: Elapse gap :: burst rest wlast
  end.

Definition responsive : Options :=
  {| width := None; height := None; framePadding := None;
     minWidth := None; defaultWidth := None |}.

(** *** Notions used to state the properties *)

(** The width a notification stores: [Math.max(w, minWidth)]. *)
Definition clampWidth (s : Wrapper) (w : Q) : Q := Math_max w (w_minWidth s).

(** The invocation of [render] that [doRender] makes when the stored
    width is [w]. *)
Definition renderCall (s : Wrapper) (w : Q) : RenderCall :=
  {| outerW := w;
     innerWidth := w - left (pad s) - right (pad s);
     innerHeight := w_height s - top (pad s) - bottom (pad s) |}.

(** What no event changes. *)
Definition same_config (s s' : Wrapper) : Prop :=
  pad s' = pad s /\ w_height s' = w_height s /\ w_minWidth s' = w_minWidth s.

(** At most one timeout is pending, and it is the one [resizeTimer]
    refers to. *)
Definition one_timer (s : Wrapper) : Prop :=
  timers s = [] \/
  exists id r, timers s = [(id, r)] /\ resizeTimer s = Some id /\ (0 < r)%nat.

(** Consecutive widths differ, starting from [prev]. *)
Fixpoint chain (prev : Q) (l : list Q) : Prop :=
  match l with
  | [] => True
  | x :: rest => ~ x == prev /\ chain x rest
  end.

(** No two widths of the list are equal. *)
Fixpoint distinct (l : list Q) : Prop :=
  match l with
  | [] => True
  | x :: rest => Forall (fun y => ~ y == x) rest /\ distinct rest
  end.

End ChartWrapper.

(* ===================================================================== *)
(** ** core/colorScale.js *)
(* ===================================================================== *)

Module ColorScale.

(** [DEFAULT_PALETTE]. *)
Definition DEFAULT_PALETTE : list string :=
  ["#73A7D9"; "#FFC84C"; "#95D1A9"; "#C49BCF"; "#FF9B66"; "#AEC1E5"]%string.

(** [palette[i % palette.length]]; with an empty palette the index is not
    a number and the read gives [undefined], here [None]. *)
Definition paletteAt (palette : list string) (i : nat) : option string :=
  match length palette with
  | O => None
  | S _ => palette !! (i mod length palette)%nat
  end.

(** [for (const k of Object.keys(customColors)) map.set(k, customColors[k])];
    [pairs] are the properties of [customColors].  A value of the map may be
    [undefined], so the map holds options. *)
Definition setCustom (pairs : list (string * string)) : gmap string (option string) :=
  foldl (fun m kv => <[kv.1 := Some kv.2]> m) ∅ pairs.

(** The body of [order.forEach((k, i) => ...)]:
    [if (!map.has(k)) map.set(k, palette[i % palette.length])]. *)
Definition assignKey (palette : list string) (m : gmap string (option string))
           (ik : nat * string) : gmap string (option string) :=
  match m !! ik.2 with
  | Some _ => m
  | None => <[ik.2 := paletteAt palette ik.1]> m
  end.

(** The map [createColorScale] builds; [customColors] is [None] when the
    argument is absent. *)
Definition colorMap (order : list string) (customColors : option (gmap string string))
           (palette : list string) : gmap string (option string) :=
  let map0 :=
    match customColors with
    | Some cc => setCustom (map_to_list cc)
    | None => ∅
    end in
  foldl (assignKey palette) map0 (imap (fun i k => (i, k)) order).

(** The default value of the parameter [palette = DEFAULT_PALETTE]. *)
Definition paletteOrDefault (palette : option (list string)) : list string :=
  match palette with
  | Some p => p
  | None => DEFAULT_PALETTE
  end.

(** [createColorScale(order, customColors, palette = DEFAULT_PALETTE)]
    returns [key => map.get(key) ?? palette[0]]; [None] is [undefined]. *)
Definition createColorScale (order : list string)
           (customColors : option (gmap string string))
           (palette : option (list string))
  : string -> option string :=
  let palette := paletteOrDefault palette in
  let map := colorMap order customColors palette in
  fun key =>
    match map !! key with
    | Some (Some c) => Some c
    | _ => palette !! 0%nat
    end.

(** *** Notions used to state the properties *)

(** [customColors?.[k]]: the custom colour of the key [k], if any. *)
Definition customOf (customColors : option (gmap string string)) (k : string)
  : option string :=
  match customColors with
  | Some cc => cc !! k
  | None => None
  end.

End ColorScale.

(* ===================================================================== *)
(** ** PieChart/PieChart.js: [arcPath] *)
(* ===================================================================== *)

Module PieArc.
Import Js.


End PieArc.

(* ===================================================================== *)
(** ** The [render] callbacks of the bar and line charts *)
(* ===================================================================== *)

Module Charts.
Import Js Scales Ticks.












(** A record of the grouped charts; [g_values] lists the properties of
    [d.values] in the order of [Object.keys]. *)
Record GroupDatum : Type := {
  g_label : string;
  g_values : list (string * Q)
}.

(** [Array.from(new Set(keys))]: the first occurrence of each key, in order. *)
Definition uniqueKeys (keys : list string) : list string :=
  foldl (fun acc k => if bool_decide (k ∈ acc) then acc else acc ++ [k]) [] keys.

(** [seriesOrder ?? Array.from(new Set(currentData.flatMap(d => Object.keys(d.values))))]. *)
Definition inferredKeys (seriesOrder : option (list string)) (data : list GroupDatum)
  : list string :=
  match seriesOrder with
  | Some order => order
  | None => uniqueKeys (flat_map (fun d => map fst (g_values d)) data)
  end.


End Charts.

(* ===================================================================== *)
(** ** Notions used to state further properties *)
(* ===================================================================== *)

Module Notions.


(** At most one timeout is pending, it is the one [resizeTimer] refers to,
    and it has at most 100 ms to run. *)
Definition one_timer_100 (s : ChartWrapper.Wrapper) : Prop :=
  ChartWrapper.timers s = [] \/
  exists id r,
    ChartWrapper.timers s = [(id, r)] /\ ChartWrapper.resizeTimer s = Some id /\
    (0 < r)%nat /\ (r <= 100)%nat.

(** What holds of a wrapper [s] that was created as [s0]: the
    configuration is that of [s0], at most one timeout is pending, the
    stored width satisfies [W], and every invocation of [render] so far
    was made by [doRender] with a width that satisfies [W]. *)
Definition wrapper_inv (s0 : ChartWrapper.Wrapper) (W : Q -> Prop)
           (s : ChartWrapper.Wrapper) : Prop :=
  ChartWrapper.same_config s0 s /\
  one_timer_100 s /\
  W (ChartWrapper.currentWidth s) /\
  Forall (fun c => W (ChartWrapper.outerW c) /\
                   c = ChartWrapper.renderCall s0 (ChartWrapper.outerW c))
         (ChartWrapper.calls s).

End Notions.

(* ===================================================================== *)
(** * Properties *)
(* ===================================================================== *)

(** ** Numbers *)

Module JsFacts.
Import Js.

Lemma or_one_nonzero (x : Q) : ~ or_one x == 0.
Proof.
  unfold or_one. destruct (Qeq_bool x 0) eqn:E.
  - discriminate.
  - apply Qeq_bool_neq. exact E.
Qed.



Lemma js_div_finite (a b : Q) : ~ b == 0 -> js_div a b = Some (a / b).
Proof.
  intros H. unfold js_div. destruct (Qeq_bool b 0) eqn:E; [|reflexivity].
  apply Qeq_bool_iff in E. contradiction.
Qed.

Lemma lt_true (a b : Q) : lt a b = true <-> a < b.
Proof.
  unfold lt. rewrite negb_true_iff. split; intros H.
  - apply Qnot_le_lt. intros Hle. apply Qle_bool_iff in Hle. congruence.
  - destruct (Qle_bool b a) eqn:E; [|reflexivity].
    apply Qle_bool_iff in E. lra.
Qed.


Lemma Math_max_spec (a b : Q) :
  (a <= b /\ Math_max a b = b) \/ (b < a /\ Math_max a b = a).
Proof.
  unfold Math_max. destruct (Qle_bool a b) eqn:E.
  - left. apply Qle_bool_iff in E. auto.
  - right. split; [|reflexivity]. apply Qnot_le_lt. intros H.
    apply Qle_bool_iff in H. congruence.
Qed.

Lemma Math_max_ge_l (a b : Q) : a <= Math_max a b.
Proof. destruct (Math_max_spec a b) as [[? ->]|[? ->]]; lra. Qed.

Lemma Math_max_ge_r (a b : Q) : b <= Math_max a b.
Proof. destruct (Math_max_spec a b) as [[? ->]|[? ->]]; lra. Qed.




End JsFacts.

(** ** core/scales.js *)

Module ScalesFacts.
Import Js JsFacts Scales.

Lemma linearScale_value (dMin dMax rMin rMax v : Q) :
  linearScale dMin dMax rMin rMax v
  = Some (rMin + ((v - dMin) / or_one (dMax - dMin)) * (rMax - rMin)).
Proof.
  unfold linearScale. rewrite js_div_finite by apply or_one_nonzero. reflexivity.
Qed.









End ScalesFacts.

Module ScalesClaims.
Import Js JsFacts Scales ScalesFacts.














End ScalesClaims.

(** ** core/ticks.js *)

Module TicksFacts.
Import Js JsFacts Ticks.

Lemma Qfloor_unique (x : Q) (k : Z) :
  inject_Z k <= x -> x < inject_Z (k + 1) -> Qfloor x = k.
Proof.
  intros Hlo Hhi.
  pose proof (Qfloor_resp_le _ _ Hlo) as H1. rewrite Qfloor_Z in H1.
  pose proof (Qfloor_le x) as H2.
  assert (H3 : inject_Z (Qfloor x) < inject_Z (k + 1)) by lra.
  rewrite <- Zlt_Qlt in H3. lia.
Qed.










End TicksFacts.

Module TicksClaims.
Import Js JsFacts Ticks TicksFacts.



Lemma start_ge_min (yMin step : Q) :
  0 < step -> yMin <= Math_ceil (yMin / step) * step.
Proof.
  intros Hs. unfold Math_ceil.
  pose proof (Qle_ceiling (yMin / step)) as Hc.
  setoid_replace yMin with ((yMin / step) * step) using relation Qeq at 1
    by (field; lra).
  apply Qmult_le_compat_r; [exact Hc | lra].
Qed.



(** Scenario A of the specification, and a domain whose bounds are not
    multiples of the step. *)
Example makeTicks_step_20 :
  makeTicks 10 0 100 (Some (TicksStep 20)) = Some [0; 20; 40; 60; 80; 100].
Proof. reflexivity. Qed.

Example makeTicks_step_inserted :
  makeTicks 10 5 47 (Some (TicksStep 20)) = Some [5; 20; 40; 47].
Proof. reflexivity. Qed.

Lemma count_floor (c : Q) : 1 <= c -> Z.max 1 (Qfloor c) = Qfloor c.
Proof.
  intros Hc. apply Qfloor_resp_le in Hc. change (Qfloor 1) with 1%Z in Hc. lia.
Qed.



(** Scenario B of the specification. *)
Example makeTicks_count_5 :
  makeTicks 0 0 100 (Some (TicksCount 5)) = Some [0; 20; 40; 60; 80; 100].
Proof. reflexivity. Qed.


End TicksClaims.

(** ** PieChart/PieChart.js *)

Module PieFacts.
Import Js JsFacts Pie.

Lemma clampValue_nonneg (x : number) : 0 <= clampValue x.
Proof.
  destruct x as [q| | |]; simpl; try lra. apply Math_max_ge_l.
Qed.

Lemma clampValue_not_finite (x : number) :
  Number_isFinite x = false -> clampValue x = 0.
Proof. destruct x; simpl; [discriminate| | |]; reflexivity. Qed.

Lemma clampValue_finite (q : Q) :
  (q <= 0 -> clampValue (Finite q) == 0) /\ (0 < q -> clampValue (Finite q) = q).
Proof.
  simpl. destruct (Math_max_spec 0 q) as [[H ->]|[H ->]]; split; intros; lra || reflexivity.
Qed.

Lemma clampValue_positive (x : number) : 0 < clampValue x <-> positive_value x.
Proof.
  split.
  - destruct x as [q| | |]; simpl; try (intros H; lra).
    intros H. exists q. split; [reflexivity|].
    destruct (Math_max_spec 0 q) as [[? E]|[? E]]; rewrite E in H; lra.
  - intros (q & -> & Hq). rewrite (proj2 (clampValue_finite q) Hq). exact Hq.
Qed.

Lemma validData_filter (data : list PieDatum) :
  validData data
  = map (fun d => {| v_label := label d; v_value := clampValue (value d) |})
        (List.filter keep data).
Proof.
  unfold validData. induction data as [|d data IH]; [reflexivity|].
  simpl. unfold keep at 1. destruct (lt 0 (clampValue (value d))); simpl; rewrite IH;
    reflexivity.
Qed.

Lemma validData_positive (data : list PieDatum) :
  Forall (fun d => 0 < v_value d) (validData data).
Proof.
  unfold validData. apply Forall_forall. intros d Hd.
  apply list_elem_of_In, filter_In in Hd. destruct Hd as [_ Hd].
  apply lt_true. exact Hd.
Qed.

Lemma foldl_values_pos (valid : list ValidDatum) :
  Forall (fun d => 0 < v_value d) valid ->
  forall acc, 0 <= acc -> (0 < acc \/ valid <> []) ->
  0 < foldl (fun a d => a + v_value d) acc valid.
Proof.
  induction 1 as [|d valid Hd _ IH]; intros acc Hacc Hne; simpl.
  - destruct Hne as [H|H]; [exact H|congruence].
  - apply IH; [lra|]. left. lra.
Qed.

Lemma totalValue_positive (data : list PieDatum) :
  validData data <> [] -> 0 < totalValue (validData data).
Proof.
  intros Hne. unfold totalValue.
  apply foldl_values_pos; [apply validData_positive|lra|right; exact Hne].
Qed.

Lemma slice_loop_records (total angle : Q) (valid : list ValidDatum) :
  map (fun s => (s_label s, s_value s)) (slice_loop total angle valid)
  = map (fun d => (v_label d, v_value d)) valid.
Proof.
  revert angle. induction valid as [|d valid IH]; intros angle; simpl;
    [reflexivity|]. rewrite IH. reflexivity.
Qed.

Lemma computeSlices_nonempty (data : list PieDatum) :
  validData data <> [] ->
  computeSlices data
  = slice_loop (totalValue (validData data)) (- Math_PI / 2) (validData data).
Proof.
  intros Hne. unfold computeSlices.
  pose proof (totalValue_positive data Hne) as Ht. apply lt_true in Ht. rewrite Ht.
  destruct (validData data); [congruence|reflexivity].
Qed.

Lemma computeSlices_empty (data : list PieDatum) :
  validData data = [] -> computeSlices data = [].
Proof. intros H. unfold computeSlices. rewrite H. reflexivity. Qed.

Lemma validData_none (data : list PieDatum) :
  Forall (fun d => ~ positive_value (value d)) data -> validData data = [].
Proof.
  intros H. rewrite validData_filter.
  induction H as [|d data Hd _ IH]; [reflexivity|].
  simpl. unfold keep at 1.
  destruct (lt 0 (clampValue (value d))) eqn:E; [|exact IH].
  apply lt_true, clampValue_positive in E. contradiction.
Qed.

End PieFacts.

Module PieClaims.
Import Js JsFacts Pie PieFacts.

(** C9.  The slice computation clamps a value that is not finite or is
    negative to 0, and the slices are, in order, the records whose
    clamped value is above 0, each with its label and clamped value: a
    record whose clamped value is 0 has no slice.  For
    [[{label:"A",value:0},{label:"B",value:50}]] there is one slice, for
    [B], which starts at [-Math.PI / 2] and whose span [end - start] is
    [2 * Math.PI].  When no record has a positive value the slice list is
    empty and [render] draws the placeholder circle. *)
Theorem pie_slices :
  (forall x : number,
     0 <= clampValue x /\
     (Number_isFinite x = false -> clampValue x = 0) /\
     (forall q, x = Finite q -> q <= 0 -> clampValue x == 0)) /\
  (forall data : list PieDatum,
     map (fun s => (s_label s, s_value s)) (computeSlices data)
     = map (fun d => (label d, clampValue (value d)))
           (List.filter (fun d => lt 0 (clampValue (value d))) data)) /\
  (exists s,
     computeSlices [ {| label := "A"; value := Finite 0 |};
                     {| label := "B"; value := Finite 50 |} ] = [s] /\
     s_label s = "B"%string /\
     s_start s == - Math_PI / 2 /\
     s_end s - s_start s == 2 * Math_PI /\
     s_fraction s == 1) /\
  (forall (data : list PieDatum) (currentWidth height innerRadiusRatio : Q)
          (legendShow : bool),
     Forall (fun d => ~ positive_value (value d)) data ->
     computeSlices data = [] /\
     exists cx cy r,
       render data currentWidth height innerRadiusRatio legendShow
       = EmptyRing cx cy r).
Proof.
  split; [|split; [|split]].
  - intros x. split; [apply clampValue_nonneg|].
    split; [apply clampValue_not_finite|].
    intros q -> Hq. apply (proj1 (clampValue_finite q) Hq).
  - intros data. destruct (validData data) as [|v vs] eqn:E.
    + rewrite (computeSlices_empty data E).
      rewrite validData_filter in E. apply map_eq_nil in E.
      fold keep. rewrite E. reflexivity.
    + rewrite computeSlices_nonempty by (rewrite E; discriminate).
      rewrite slice_loop_records, validData_filter, map_map. reflexivity.
  - eexists. split; [vm_compute; reflexivity|].
    split; [reflexivity|]. repeat split; vm_compute; reflexivity.
  - intros data w h r l Hnone.
    pose proof (computeSlices_empty data (validData_none data Hnone)) as Hs.
    split; [exact Hs|]. unfold render. rewrite Hs. simpl. eauto.
Qed.

Lemma pie_slices_witness :
  computeSlices [ {| label := "A"; value := Finite (-3) |};
                  {| label := "B"; value := NaN |} ] = [] /\
  exists cx cy r,
    render [ {| label := "A"; value := Finite (-3) |};
             {| label := "B"; value := NaN |} ] 640 360 0 true
    = EmptyRing cx cy r.
Proof.
  apply (proj2 (proj2 (proj2 pie_slices))).
  repeat constructor; intros (q & Hq & Hpos); inversion Hq; subst;
    vm_compute in Hpos; discriminate.
Defined.

End PieClaims.

(** ** core/ChartWrapper.js *)

Module WrapperFacts.
Import Js JsFacts ChartWrapper.

Lemma same_config_refl (s : Wrapper) : same_config s s.
Proof. repeat split. Qed.

Lemma same_config_trans (s1 s2 s3 : Wrapper) :
  same_config s1 s2 -> same_config s2 s3 -> same_config s1 s3.
Proof. unfold same_config. intros (-> & -> & ->) (-> & -> & ->). repeat split. Qed.

Lemma clearTimeout_own (id : positive) (r : nat) : clearTimeout id [(id, r)] = [].
Proof. unfold clearTimeout. simpl. rewrite Pos.eqb_refl. reflexivity. Qed.

(** A notification whose clamped width is the stored one changes nothing. *)
Lemma onEntry_same (s : Wrapper) (w : Q) :
  clampWidth s w == currentWidth s -> onEntry s w = s.
Proof.
  intros H. unfold onEntry. fold (clampWidth s w).
  apply Qeq_bool_iff in H. rewrite H. reflexivity.
Qed.

(** A notification with a new clamped width stores it and leaves exactly
    one timeout pending, 100 ms from now. *)
Lemma onEntry_change (s : Wrapper) (w : Q) :
  one_timer s -> ~ clampWidth s w == currentWidth s ->
  let s' := onEntry s w in
  same_config s s' /\ observing s' = observing s /\
  currentWidth s' = clampWidth s w /\ calls s' = calls s /\
  exists id, timers s' = [(id, 100%nat)] /\ resizeTimer s' = Some id.
Proof.
  intros Hinv Hne. unfold onEntry. fold (clampWidth s w).
  assert (E : Qeq_bool (clampWidth s w) (currentWidth s) = false).
  { destruct (Qeq_bool _ _) eqn:E; [|reflexivity].
    apply Qeq_bool_iff in E. contradiction. }
  rewrite E. simpl.
  repeat split. exists (nextTimerId s). split; [|reflexivity].
  destruct Hinv as [Hq|(id & r & Hq & Hr & _)]; rewrite Hq.
  - destruct (resizeTimer s); reflexivity.
  - rewrite Hr, clearTimeout_own. reflexivity.
Qed.

(** Time passing while nothing is pending. *)
Lemma elapse_idle (s : Wrapper) (ms : nat) :
  timers s = [] ->
  let s' := elapse s ms in
  same_config s s' /\ observing s' = observing s /\
  currentWidth s' = currentWidth s /\ calls s' = calls s /\
  timers s' = [] /\ resizeTimer s' = resizeTimer s.
Proof. intros H. unfold elapse. rewrite H. simpl. repeat split. Qed.

(** Time passing short of the pending timeout. *)
Lemma elapse_waiting (s : Wrapper) (id : positive) (r ms : nat) :
  timers s = [(id, r)] -> (ms < r)%nat ->
  let s' := elapse s ms in
  same_config s s' /\ observing s' = observing s /\
  currentWidth s' = currentWidth s /\ calls s' = calls s /\
  timers s' = [(id, (r - ms)%nat)] /\ resizeTimer s' = resizeTimer s.
Proof.
  intros H Hlt. unfold elapse. rewrite H. simpl.
  assert (E : (r <=? ms)%nat = false) by (apply Nat.leb_gt; exact Hlt).
  rewrite E. simpl. repeat split.
Qed.

(** Time passing up to the pending timeout or beyond: [doRender] runs
    once, with the stored width. *)
Lemma elapse_due (s : Wrapper) (id : positive) (r ms : nat) :
  timers s = [(id, r)] -> (r <= ms)%nat ->
  let s' := elapse s ms in
  same_config s s' /\ observing s' = observing s /\
  currentWidth s' = currentWidth s /\
  calls s' = calls s ++ [renderCall s (currentWidth s)] /\
  timers s' = [] /\ resizeTimer s' = resizeTimer s.
Proof.
  intros H Hle. unfold elapse. rewrite H. simpl.
  assert (E : (r <=? ms)%nat = true) by (apply Nat.leb_le; exact Hle).
  rewrite E. simpl. repeat split.
Qed.

(** Every event keeps at most one timeout pending. *)
Lemma onEntry_one_timer (s : Wrapper) (w : Q) : one_timer s -> one_timer (onEntry s w).
Proof.
  intros Hinv.
  destruct (Qeq_dec (clampWidth s w) (currentWidth s)) as [He|Hne].
  - rewrite onEntry_same by exact He. exact Hinv.
  - destruct (onEntry_change s w Hinv Hne) as (_ & _ & _ & _ & id & Ht & Hr).
    right. exists id, 100%nat. repeat split; [exact Ht|exact Hr|lia].
Qed.

Lemma step_one_timer (s : Wrapper) (e : Event) : one_timer s -> one_timer (step s e).
Proof.
  intros Hinv. destruct e as [entries|ms| |]; simpl.
  - unfold onResize. destruct (observing s); [|exact Hinv].
    revert s Hinv. induction entries as [|w entries IH]; intros s Hinv; simpl;
      [exact Hinv|]. apply IH. apply onEntry_one_timer. exact Hinv.
  - destruct Hinv as [Hq|(id & r & Hq & Hr & Hpos)].
    + left. apply (elapse_idle s ms Hq).
    + destruct (le_lt_dec r ms) as [Hle|Hlt].
      * left. apply (elapse_due s id r ms Hq Hle).
      * right. exists id, (r - ms)%nat.
        destruct (elapse_waiting s id r ms Hq Hlt) as (_ & _ & _ & _ & Ht & Hrt).
        repeat split; [exact Ht|congruence|lia].
  - exact Hinv.
  - exact Hinv.
Qed.

Lemma create_one_timer (o : Options) (rectWidth : Q) :
  one_timer (createChartWrapper o rectWidth).
Proof. left. reflexivity. Qed.

Lemma run_one_timer (s : Wrapper) (es : list Event) : one_timer s -> one_timer (run s es).
Proof.
  revert s. induction es as [|e es IH]; intros s Hinv; simpl; [exact Hinv|].
  apply IH. apply step_one_timer. exact Hinv.
Qed.

End WrapperFacts.

Module WrapperClaims.
Import Js JsFacts ChartWrapper WrapperFacts.

Lemma clampWidth_config (s s' : Wrapper) (w : Q) :
  same_config s s' -> clampWidth s' w = clampWidth s w.
Proof. intros (_ & _ & H). unfold clampWidth. rewrite H. reflexivity. Qed.

Lemma renderCall_config (s s' : Wrapper) (w : Q) :
  same_config s s' -> renderCall s' w = renderCall s w.
Proof. intros (H1 & H2 & _). unfold renderCall. rewrite H1, H2. reflexivity. Qed.

Lemma distinct_chain (l : list Q) : forall x, distinct (x :: l) -> chain x l.
Proof.
  induction l as [|y l IH]; intros x Hd; simpl; [exact I|].
  destruct Hd as [Hx Hd]. inversion Hx; subst. split; [assumption|].
  apply IH. exact Hd.
Qed.

Lemma chain_start (l : list Q) (p p' : Q) : p == p' -> chain p l -> chain p' l.
Proof.
  intros Hp. destruct l as [|x l]; simpl; [auto|].
  intros [Hx Hc]. split; [|exact Hc]. intros H. apply Hx. lra.
Qed.

(** A burst in which every notification changes the stored width, each
    less than 100 ms after the one before: no render happens during the
    burst, and at its end one timeout is pending with the full 100 ms to
    run and the stored width is the last clamped width. *)
Lemma burst_chain (ws : list (Q * nat)) (wlast : Q) :
  forall s : Wrapper,
    one_timer s -> observing s = true ->
    Forall (fun wg => (snd wg < 100)%nat) ws ->
    chain (currentWidth s) (map (clampWidth s) (map fst ws ++ [wlast])) ->
    let s' := run s (burst ws wlast) in
    same_config s s' /\ observing s' = true /\
    currentWidth s' = clampWidth s wlast /\ calls s' = calls s /\
    exists id, timers s' = [(id, 100%nat)] /\ resizeTimer s' = Some id.
Proof.
  induction ws as [|[w gap] ws IH]; intros s Hinv Hobs Hgaps Hchain; cbv zeta.
  - assert (Hstep : run s (burst [] wlast) = onEntry s wlast).
    { simpl. unfold onResize. rewrite Hobs. reflexivity. }
    rewrite Hstep. simpl in Hchain.
    destruct Hchain as [Hne _].
    destruct (onEntry_change s wlast Hinv Hne) as (Hc & Ho & Hw & Hcalls & Ht).
    repeat split; try apply Hc; try assumption. congruence.
  - simpl in Hchain. destruct Hchain as [Hne Hchain].
    inversion Hgaps as [|? ? Hgap Hgaps']; subst. simpl in Hgap.
    assert (Hstep : run s (burst ((w, gap) :: ws) wlast)
                    = run (elapse (onEntry s w) gap) (burst ws wlast)).
    { simpl. unfold onResize. rewrite Hobs. reflexivity. }
    rewrite Hstep.
    destruct (onEntry_change s w Hinv Hne)
      as (Hc1 & Ho1 & Hw1 & Hcalls1 & id & Ht1 & Hr1).
    set (s1 := onEntry s w) in *.
    destruct (elapse_waiting s1 id 100 gap Ht1 Hgap)
      as (Hc2 & Ho2 & Hw2 & Hcalls2 & Ht2 & Hr2).
    set (s2 := elapse s1 gap) in *.
    assert (Hc : same_config s s2) by (eapply same_config_trans; eauto).
    assert (Hinv2 : one_timer s2).
    { right. exists id, (100 - gap)%nat. repeat split; [exact Ht2|congruence|lia]. }
    assert (Hchain2 : chain (currentWidth s2)
                            (map (clampWidth s2) (map fst ws ++ [wlast]))).
    { rewrite Hw2, Hw1.
      erewrite map_ext; [exact Hchain|]. intros x. apply clampWidth_config, Hc. }
    destruct (IH s2 Hinv2 (eq_trans Ho2 (eq_trans Ho1 Hobs)) Hgaps' Hchain2)
      as (Hc3 & Ho3 & Hw3 & Hcalls3 & Ht3).
    split; [eapply same_config_trans; eauto|].
    split; [exact Ho3|].
    split; [rewrite Hw3; apply clampWidth_config, Hc|].
    split; [congruence|exact Ht3].
Qed.

Lemma run_app (s : Wrapper) (es1 es2 : list Event) :
  run s (es1 ++ es2) = run (run s es1) es2.
Proof. unfold run. apply foldl_app. Qed.

(** C7, as amended.  In responsive mode, with no timeout pending, let
    several resize notifications arrive, each less than 100 ms after the
    one before, whose widths are distinct after clamping to [minWidth].
    No render happens during the burst, and once 100 ms have passed after
    the last notification exactly one render has happened, with the
    clamped width of the last notification; the widths observed earlier
    are not rendered. *)
Theorem debounce_burst (s : Wrapper) (ws : list (Q * nat)) (wlast : Q) (d : nat) :
  observing s = true -> timers s = [] ->
  ws <> [] ->
  Forall (fun wg => (snd wg < 100)%nat) ws ->
  distinct (map (clampWidth s) (map fst ws ++ [wlast])) ->
  (100 <= d)%nat ->
  calls (run s (burst ws wlast)) = calls s /\
  calls (run s (burst ws wlast ++ [Elapse d]))
  = calls s ++ [renderCall s (clampWidth s wlast)].
Proof.
  intros Hobs Hquiet Hne Hgaps Hdist Hd.
  assert (Hburst : let s' := run s (burst ws wlast) in
            same_config s s' /\ observing s' = true /\
            currentWidth s' = clampWidth s wlast /\ calls s' = calls s /\
            exists id, timers s' = [(id, 100%nat)] /\ resizeTimer s' = Some id).
  { destruct ws as [|[w gap] ws]; [congruence|].
    simpl in Hdist. pose proof (distinct_chain _ _ Hdist) as Hchain.
    destruct (Qeq_dec (clampWidth s w) (currentWidth s)) as [Heq|Hneq].
    - inversion Hgaps as [|? ? _ Hgaps']; subst. cbv zeta.
      assert (Hstep : run s (burst ((w, gap) :: ws) wlast)
                      = run (elapse s gap) (burst ws wlast)).
      { simpl. unfold onResize. rewrite Hobs. simpl.
        rewrite (onEntry_same s w Heq). reflexivity. }
      rewrite Hstep.
      destruct (elapse_idle s gap Hquiet) as (Hc & Ho & Hw & Hcalls & Ht & _).
      set (s2 := elapse s gap) in *.
      assert (Hchain2 : chain (currentWidth s2)
                              (map (clampWidth s2) (map fst ws ++ [wlast]))).
      { rewrite Hw. apply (chain_start _ (clampWidth s w)); [exact Heq|].
        erewrite map_ext; [exact Hchain|]. intros x. apply clampWidth_config, Hc. }
      destruct (burst_chain ws wlast s2 (or_introl Ht) (eq_trans Ho Hobs)
                            Hgaps' Hchain2) as (Hc3 & Ho3 & Hw3 & Hcalls3 & Ht3).
      split; [eapply same_config_trans; eauto|].
      split; [exact Ho3|].
      split; [rewrite Hw3; apply clampWidth_config, Hc|].
      split; [congruence|exact Ht3].
    - apply (burst_chain ((w, gap) :: ws) wlast s (or_introl Hquiet) Hobs Hgaps).
      simpl. split; [exact Hneq|exact Hchain]. }
  destruct Hburst as (Hc & _ & Hw & Hcalls & id & Ht & _).
  split; [exact Hcalls|].
  rewrite run_app. simpl.
  destruct (elapse_due _ id 100 d Ht Hd) as (_ & _ & _ & Hcalls' & _).
  rewrite Hcalls', Hcalls, Hw. rewrite (renderCall_config s _ _ Hc). reflexivity.
Qed.

Lemma debounce_burst_witness :
  let s := createChartWrapper responsive 640 in
  calls (run s (burst [(500, 30%nat); (480, 30%nat)] 450)) = calls s /\
  calls (run s (burst [(500, 30%nat); (480, 30%nat)] 450 ++ [Elapse 100]))
  = calls s ++ [renderCall s (clampWidth s 450)].
Proof.
  apply (debounce_burst (createChartWrapper responsive 640)
                        [(500, 30%nat); (480, 30%nat)] 450 100).
  - reflexivity.
  - reflexivity.
  - discriminate.
  - repeat constructor; simpl; lia.
  - simpl. repeat split; repeat constructor;
      intros H; vm_compute in H; discriminate.
  - lia.
Defined.

(** The scenario of the specification: 500, 480, 450 in rapid
    succession give one render, at width 450. *)
Example debounce_500_480_450 :
  map outerW
      (calls (run (createChartWrapper responsive 640)
                  [Resize [500]; Elapse 30; Resize [480]; Elapse 30;
                   Resize [450]; Elapse 100]))
  = [640; 450].
Proof. reflexivity. Qed.

(** C7 as stated fails when the widths are distinct but below
    [minWidth]: a wrapper measured at 200 stores 320, the notifications
    300 and 250 both clamp to 320, and no re-render happens at all. *)
Lemma debounce_burst_counterexample :
  let s := createChartWrapper responsive 200 in
  observing s = true /\ currentWidth s = 320 /\ ~ 300 == 250 /\
  calls (run s (burst [(300, 30%nat)] 250 ++ [Elapse 100])) = calls s.
Proof.
  split; [reflexivity|]. split; [reflexivity|].
  split; [intros H; vm_compute in H; discriminate|reflexivity].
Qed.

(** [destroy] leaves the queue of pending timeouts as it is. *)
Lemma destroy_timers (s : Wrapper) :
  timers (destroy s) = timers s /\ observing (destroy s) = false /\
  mounted (destroy s) = false /\ calls (destroy s) = calls s.
Proof. repeat split. Qed.

(** C1 does not hold of the code.  In responsive mode a resize
    notification with the new width 500 arms the timeout; [destroy]
    disconnects the observer and empties the container but does not clear
    the timeout, which runs when the 100 ms have passed: [render] is
    invoked, with width 500, after [destroy] has returned. *)
Theorem render_after_destroy :
  let s0 := createChartWrapper responsive 640 in
  let sd := run s0 [Resize [500]; Destroy] in
  observing sd = false /\ mounted sd = false /\
  timers sd = [(1%positive, 100%nat)] /\
  calls sd = [renderCall s0 640] /\
  calls (run sd [Elapse 100]) = calls sd ++ [renderCall s0 500].
Proof. vm_compute. repeat split. Qed.

(** When no timeout is pending, nothing but an explicit [update] renders
    after [destroy]: the observer is disconnected, so later notifications
    are not delivered. *)
Lemma no_render_after_quiet_destroy (es : list Event) :
  Forall (fun e => e <> Update) es ->
  forall s : Wrapper,
    timers s = [] -> observing s = false ->
    calls (run s es) = calls s.
Proof.
  induction 1 as [|e es He _ IH]; intros s Hq Ho; [reflexivity|].
  simpl. destruct e as [entries|ms| |]; simpl.
  - unfold onResize. rewrite Ho. apply IH; assumption.
  - destruct (elapse_idle s ms Hq) as (_ & Ho' & _ & Hc & Hq' & _).
    rewrite IH; [exact Hc|exact Hq'|congruence].
  - congruence.
  - rewrite IH; reflexivity || assumption.
Qed.

(** The same for any wrapper in responsive mode and any notification that
    changes the stored width: the render it scheduled happens although
    [destroy] was called in between. *)
Lemma scheduled_render_survives_destroy (s : Wrapper) (w : Q) (d : nat) :
  observing s = true -> one_timer s ->
  ~ clampWidth s w == currentWidth s -> (100 <= d)%nat ->
  let sd := run s [Resize [w]; Destroy] in
  observing sd = false /\ mounted sd = false /\ calls sd = calls s /\
  calls (run sd [Elapse d]) = calls s ++ [renderCall s (clampWidth s w)].
Proof.
  intros Hobs Hinv Hne Hd.
  assert (Hsd : run s [Resize [w]; Destroy] = destroy (onEntry s w)).
  { simpl. unfold onResize. rewrite Hobs. reflexivity. }
  cbv zeta. rewrite Hsd.
  destruct (onEntry_change s w Hinv Hne) as (Hc & _ & Hw & Hcalls & id & Ht & _).
  split; [reflexivity|]. split; [reflexivity|]. split; [exact Hcalls|].
  change (run (destroy (onEntry s w)) [Elapse d])
    with (elapse (destroy (onEntry s w)) d).
  destruct (elapse_due (destroy (onEntry s w)) id 100 d Ht Hd)
    as (_ & _ & _ & Hcalls' & _).
  rewrite Hcalls'. simpl calls. simpl currentWidth. rewrite Hcalls, Hw.
  f_equal. f_equal. apply (renderCall_config s (destroy (onEntry s w))).
  exact Hc.
Qed.

End WrapperClaims.



(* ===================================================================== *)
(** * Further properties of the code *)
(* ===================================================================== *)

(** ** core/scales.js *)

Module ScalesMore.
Import Js JsFacts Scales ScalesFacts.

Lemma or_one_pos (x : Q) : 0 <= x -> 0 < or_one x.
Proof.
  intros Hx. unfold or_one. destruct (Qeq_bool x 0) eqn:E; [reflexivity|].
  apply Qeq_bool_neq in E. lra.
Qed.

Lemma Qdiv_nonneg (a d : Q) : 0 <= a -> 0 < d -> 0 <= a / d.
Proof.
  intros Ha Hd. unfold Qdiv. apply Qmult_le_0_compat; [exact Ha|].
  apply Qlt_le_weak, Qinv_lt_0_compat. exact Hd.
Qed.

Lemma Math_min_spec (a b : Q) :
  (a <= b /\ Math_min a b = a) \/ (b < a /\ Math_min a b = b).
Proof.
  unfold Math_min. destruct (Qle_bool a b) eqn:E.
  - left. apply Qle_bool_iff in E. auto.
  - right. split; [|reflexivity]. apply Qnot_le_lt. intros H.
    apply Qle_bool_iff in H. congruence.
Qed.

(** X1.  For a domain given in ascending order ([dMin <= dMax]) the scale
    keeps the order of its arguments when the range ascends and reverses
    it when the range descends (as for the value axis of the vertical
    charts, whose range is [innerHeight .. 0]). *)
Theorem linearScale_monotone (dMin dMax rMin rMax v w : Q) :
  dMin <= dMax -> v <= w ->
  exists a b,
    linearScale dMin dMax rMin rMax v = Some a /\
    linearScale dMin dMax rMin rMax w = Some b /\
    (rMin <= rMax -> a <= b) /\
    (rMax <= rMin -> b <= a).
Proof.
  intros Hd Hvw.
  do 2 eexists. split; [apply linearScale_value|]. split; [apply linearScale_value|].
  assert (Hpos : 0 < or_one (dMax - dMin)) by (apply or_one_pos; lra).
  set (d := or_one (dMax - dMin)) in *.
  assert (Hq : 0 <= (w - v) / d) by (apply Qdiv_nonneg; lra).
  assert (Hdiff : (w - dMin) / d - (v - dMin) / d == (w - v) / d) by (field; lra).
  split; intros Hr.
  - assert (0 <= (w - v) / d * (rMax - rMin)) by (apply Qmult_le_0_compat; lra).
    nra.
  - assert (0 <= (w - v) / d * (rMin - rMax)) by (apply Qmult_le_0_compat; lra).
    nra.
Qed.

Lemma linearScale_monotone_witness :
  exists a b,
    linearScale 0 100 296 0 20 = Some a /\
    linearScale 0 100 296 0 80 = Some b /\
    (296 <= 0 -> a <= b) /\
    (0 <= 296 -> b <= a).
Proof.
  apply (linearScale_monotone 0 100 296 0 20 80); vm_compute; discriminate.
Defined.










(** With no labels at all the scale is still well defined: the
    divisor [n] is 1, there is no band position, [getX] returns [0] for
    every key, the band width is the range without the gaps and the gap
    width is half of the gap total. *)
Lemma bandScale_no_labels (rMin rMax g : Q) :
  let b := bandScale [] rMin rMax (Some g) in
  entries b = [] /\
  (forall key, getX b key = 0) /\
  bandWidth b == (rMax - rMin) * (1 - g) /\
  gapWidth b == (rMax - rMin) * g / 2.
Proof.
  simpl. split; [reflexivity|]. split; [reflexivity|].
  change (inject_Z (bandCount [])) with 1. split; field.
Qed.

End ScalesMore.

(** ** core/ticks.js *)

Module TicksMore.
Import Js JsFacts Ticks TicksFacts TicksClaims.


Lemma Math_round_lower (x : Q) (k : Z) : inject_Z k <= x -> inject_Z k <= Math_round x.
Proof.
  intros H. unfold Math_round. rewrite <- Zle_Qle.
  rewrite <- (Qfloor_Z k). apply Qfloor_resp_le. lra.
Qed.

Lemma Math_round_upper (x : Q) (k : Z) : x <= inject_Z k -> Math_round x <= inject_Z k.
Proof.
  intros H. unfold Math_round. rewrite <- Zle_Qle.
  pose proof (Qfloor_le (x + (1 # 2))) as Hf.
  assert (Hlt : inject_Z (Qfloor (x + (1 # 2))) < inject_Z (k + 1)).
  { rewrite inject_Z_plus. change (inject_Z 1) with 1. lra. }
  rewrite <- Zlt_Qlt in Hlt. lia.
Qed.

(** X5.  Without a tick policy and with integer bounds [yMin <= yMax],
    [makeTicks] returns the three ticks [yMin], the rounded midpoint and
    [yMax], in ascending order: the midpoint is an integer between the
    bounds. *)
Theorem makeTicks_default (fuel : nat) (yMin yMax : Q) (a b : Z) :
  yMin == inject_Z a -> yMax == inject_Z b -> yMin <= yMax ->
  exists mid : Z,
    makeTicks fuel yMin yMax None = Some [yMin; inject_Z mid; yMax] /\
    yMin <= inject_Z mid /\ inject_Z mid <= yMax.
Proof.
  intros Ha Hb Hle.
  exists (Qfloor ((yMin + yMax) / 2 + (1 # 2))).
  split; [reflexivity|].
  fold (Math_round ((yMin + yMax) / 2)). split.
  - rewrite Ha at 1. apply Math_round_lower. rewrite <- Ha.
    assert (yMin == (yMin + yMin) / 2) by field.
    assert ((yMin + yMin) / 2 <= (yMin + yMax) / 2).
    { unfold Qdiv. apply Qmult_le_compat_r; [lra|]. vm_compute. discriminate. }
    lra.
  - rewrite Hb at 2. apply Math_round_upper. rewrite <- Hb.
    assert (yMax == (yMax + yMax) / 2) by field.
    assert ((yMin + yMax) / 2 <= (yMax + yMax) / 2).
    { unfold Qdiv. apply Qmult_le_compat_r; [lra|]. vm_compute. discriminate. }
    lra.
Qed.

Lemma makeTicks_default_witness :
  exists mid : Z,
    makeTicks 0 0 85 None = Some [0; inject_Z mid; 85] /\
    0 <= inject_Z mid /\ inject_Z mid <= 85.
Proof.
  apply (makeTicks_default 0 0 85 0 85); vm_compute; reflexivity || discriminate.
Defined.

Lemma Math_max_one (s : Q) : 1 <= Math_max 1 s.
Proof. apply Math_max_ge_l. Qed.




(** When the domain is given upside down ([yMax < yMin]) the [step]
    branch generates nothing and returns the two bounds as they are,
    [yMin] first: the result is not ascending. *)
Lemma makeTicks_step_inverted (fuel : nat) (yMin yMax s : Q) :
  yMax < yMin ->
  makeTicks fuel yMin yMax (Some (TicksStep s)) = Some [yMin; yMax].
Proof.
  intros Hinv. unfold makeTicks.
  pose proof (Math_max_one s) as Hs.
  pose proof (start_ge_min yMin (Math_max 1 s)) as Hstart.
  set (step := Math_max 1 s) in *. set (start := Math_ceil (yMin / step) * step) in *.
  assert (Hgt : yMax < start) by (specialize (Hstart ltac:(lra)); lra).
  assert (E : Qle_bool start yMax = false).
  { destruct (Qle_bool start yMax) eqn:E; [|reflexivity].
    apply Qle_bool_iff in E. lra. }
  assert (Hloop : step_loop fuel start yMax step = Some []).
  { destruct fuel; simpl; rewrite E; reflexivity. }
  rewrite Hloop. unfold unshift_min, push_max. simpl.
  assert (E2 : Qeq_bool yMin yMax = false).
  { destruct (Qeq_bool yMin yMax) eqn:E2; [|reflexivity].
    apply Qeq_bool_iff in E2. lra. }
  rewrite E2. reflexivity.
Qed.

Lemma makeTicks_step_inverted_witness :
  makeTicks 0 10 2 (Some (TicksStep 3)) = Some [10; 2].
Proof. apply (makeTicks_step_inverted 0 10 2 3). reflexivity. Defined.













Lemma lookup_map_seq (f : nat -> Q) (n i : nat) :
  (i < n)%nat -> map f (seq 0 n) !! i = Some (f i).
Proof.
  intros Hi.
  assert (H : forall a m j, (j < m)%nat -> map f (seq a m) !! j = Some (f (a + j)%nat)).
  { intros a m. revert a. induction m as [|m IH]; intros a j Hj; [lia|].
    simpl. destruct j as [|j]; simpl.
    - rewrite Nat.add_0_r. reflexivity.
    - rewrite IH by lia. f_equal. f_equal. lia. }
  apply (H 0%nat n i Hi).
Qed.

(** X10.  When [yMin] is an integer and the length of a segment,
    [(yMax - yMin) / count], is an integer [m], the rounding changes
    nothing: the tick of index [i] is exactly [yMin + i * m]. *)
Theorem makeTicks_count_even (fuel : nat) (yMin yMax c : Q) (a m : Z) :
  1 <= c ->
  yMin == inject_Z a ->
  yMax - yMin == inject_Z (m * Qfloor c) ->
  exists arr,
    makeTicks fuel yMin yMax (Some (TicksCount c)) = Some arr /\
    forall i : nat,
      (i <= Z.to_nat (Qfloor c))%nat ->
      arr !! i = Some (inject_Z (a + Z.of_nat i * m)).
Proof.
  intros Hc Ha Hm. eexists. split; [reflexivity|].
  rewrite (count_floor c Hc).
  assert (Hpos : (1 <= Qfloor c)%Z).
  { apply Qfloor_resp_le in Hc. exact Hc. }
  assert (Hq : 0 < inject_Z (Qfloor c)).
  { change 0 with (inject_Z 0). rewrite <- Zlt_Qlt. lia. }
  intros i Hi. rewrite lookup_map_seq by lia. f_equal.
  unfold count_tick, Math_round. f_equal.
  apply Qfloor_unique.
  - rewrite Hm, Ha. rewrite !inject_Z_plus, !inject_Z_mult.
    assert (E : inject_Z m * inject_Z (Qfloor c) * inject_Z (Z.of_nat i)
                / inject_Z (Qfloor c) == inject_Z (Z.of_nat i) * inject_Z m)
      by (field; lra).
    lra.
  - rewrite Hm, Ha. rewrite !inject_Z_plus, !inject_Z_mult.
    assert (E : inject_Z m * inject_Z (Qfloor c) * inject_Z (Z.of_nat i)
                / inject_Z (Qfloor c) == inject_Z (Z.of_nat i) * inject_Z m)
      by (field; lra).
    change (inject_Z 1) with 1. lra.
Qed.

Lemma makeTicks_count_even_witness :
  exists arr,
    makeTicks 0 0 100 (Some (TicksCount 5)) = Some arr /\
    forall i : nat,
      (i <= Z.to_nat (Qfloor 5))%nat ->
      arr !! i = Some (inject_Z (0 + Z.of_nat i * 20)).
Proof.
  apply (makeTicks_count_even 0 0 100 5 0 20); vm_compute; reflexivity || discriminate.
Defined.

End TicksMore.

(** ** core/colorScale.js *)

Module ColorScaleMore.
Import ColorScale.

Lemma setCustom_snoc (pairs : list (string * string)) (k v : string) :
  setCustom (pairs ++ [(k, v)]) = <[k := Some v]> (setCustom pairs).
Proof. unfold setCustom. rewrite foldl_app. reflexivity. Qed.

Lemma setCustom_None (pairs : list (string * string)) (k : string) :
  (forall v, (k, v) ∉ pairs) -> setCustom pairs !! k = None.
Proof.
  induction pairs as [|[k' v'] pairs IH] using rev_ind; intros H; [reflexivity|].
  rewrite setCustom_snoc. rewrite lookup_insert_ne.
  - apply IH. intros v Hv. apply (H v). apply elem_of_app. left. exact Hv.
  - intros ->. apply (H v'). apply elem_of_app. right. apply list_elem_of_singleton.
    reflexivity.
Qed.

Lemma setCustom_Some (pairs : list (string * string)) (k v : string) :
  NoDup (pairs.*1) -> (k, v) ∈ pairs -> setCustom pairs !! k = Some (Some v).
Proof.
  induction pairs as [|[k' v'] pairs IH] using rev_ind; intros Hnd Hin.
  - apply elem_of_nil in Hin. contradiction.
  - rewrite setCustom_snoc. rewrite fmap_app in Hnd. apply NoDup_app in Hnd.
    destruct Hnd as (Hnd & Hdisj & _).
    apply elem_of_app in Hin. destruct Hin as [Hin|Hin].
    + rewrite lookup_insert_ne; [apply IH; assumption|].
      intros ->. apply (Hdisj k).
      * apply list_elem_of_fmap. exists (k, v). split; [reflexivity|exact Hin].
      * simpl. apply list_elem_of_singleton. reflexivity.
    + apply list_elem_of_singleton in Hin. injection Hin as -> ->.
      apply lookup_insert_eq.
Qed.

(** The map after the custom colours were set. *)
Lemma custom_lookup (cc : gmap string string) (k : string) :
  setCustom (map_to_list cc) !! k = Some <$> (cc !! k).
Proof.
  destruct (cc !! k) as [c|] eqn:E; simpl.
  - apply setCustom_Some; [apply NoDup_fst_map_to_list|].
    apply elem_of_map_to_list. exact E.
  - apply setCustom_None. intros v Hv. apply elem_of_map_to_list in Hv. congruence.
Qed.

Lemma assign_keeps (palette : list string) (l : list (nat * string)) :
  forall (m : gmap string (option string)) (k : string) (v : option string),
    m !! k = Some v -> foldl (assignKey palette) m l !! k = Some v.
Proof.
  induction l as [|[i k'] l IH]; intros m k v Hm; simpl; [exact Hm|].
  apply IH. unfold assignKey. simpl.
  destruct (m !! k') eqn:E; [exact Hm|].
  rewrite lookup_insert_ne; [exact Hm|]. intros ->. congruence.
Qed.

Lemma assign_absent (palette : list string) (l : list (nat * string)) :
  forall (m : gmap string (option string)) (k : string),
    m !! k = None -> (forall i, (i, k) ∉ l) ->
    foldl (assignKey palette) m l !! k = None.
Proof.
  induction l as [|[i k'] l IH]; intros m k Hm Hl; simpl; [exact Hm|].
  apply IH.
  - unfold assignKey. simpl. destruct (m !! k') eqn:E; [exact Hm|].
    rewrite lookup_insert_ne; [exact Hm|]. intros ->.
    apply (Hl i). apply elem_of_cons. left. reflexivity.
  - intros j Hj. apply (Hl j). apply elem_of_cons. right. exact Hj.
Qed.

Lemma assign_first (palette : list string) (l1 l2 : list (nat * string))
      (m : gmap string (option string)) (i : nat) (k : string) :
  m !! k = None -> (forall j, (j, k) ∉ l1) ->
  foldl (assignKey palette) m (l1 ++ (i, k) :: l2) !! k
  = Some (paletteAt palette i).
Proof.
  intros Hm Hl1. rewrite foldl_app. simpl.
  apply assign_keeps. unfold assignKey at 1. simpl.
  rewrite (assign_absent palette l1 m k Hm Hl1). apply lookup_insert_eq.
Qed.

Lemma colorMap_start (customColors : option (gmap string string)) (k : string) :
  match customColors with
  | Some cc => setCustom (map_to_list cc)
  | None => ∅
  end !! k = Some <$> customOf customColors k.
Proof.
  destruct customColors as [cc|]; simpl; [apply custom_lookup|apply lookup_empty].
Qed.

(** X11.  A key that has a custom colour gets that colour, whatever the
    order and the palette. *)
Theorem colorScale_custom (order : list string) (cc : gmap string string)
        (palette : option (list string)) (k c : string) :
  cc !! k = Some c ->
  createColorScale order (Some cc) palette k = Some c.
Proof.
  intros Hc. unfold createColorScale, colorMap.
  rewrite (assign_keeps (paletteOrDefault palette) _ _ k (Some c)); [reflexivity|].
  rewrite custom_lookup, Hc. reflexivity.
Qed.

Lemma colorScale_custom_witness :
  createColorScale ["plan"; "actual"]%string
                   (Some {["actual" := "#ff0000"]}%string) None "actual"
  = Some "#ff0000"%string.
Proof.
  apply (colorScale_custom ["plan"; "actual"]%string
                           {["actual" := "#ff0000"]}%string None). reflexivity.
Defined.

Lemma paletteAt_nonempty (palette : list string) (i : nat) :
  palette <> [] -> paletteAt palette i = palette !! (i mod length palette)%nat.
Proof. intros H. unfold paletteAt. destruct palette; [congruence|reflexivity]. Qed.

(** The colour of a key of the order that has no custom colour. *)
Lemma palette_lookup (order : list string)
      (customColors : option (gmap string string)) (palette : option (list string))
      (i : nat) (k : string) :
  paletteOrDefault palette <> [] ->
  customOf customColors k = None ->
  order !! i = Some k ->
  (forall j, (j < i)%nat -> order !! j <> Some k) ->
  createColorScale order customColors palette k
  = paletteOrDefault palette !! (i mod length (paletteOrDefault palette))%nat.
Proof.
  intros Hp Hcustom Hi Hfirst. unfold createColorScale, colorMap.
  set (pal := paletteOrDefault palette) in *.
  set (l := imap (fun i k => (i, k)) order).
  assert (Hl : l !! i = Some (i, k)).
  { unfold l. rewrite list_lookup_imap, Hi. reflexivity. }
  rewrite <- (take_drop_middle l i (i, k) Hl).
  rewrite assign_first.
  - rewrite paletteAt_nonempty by exact Hp.
    destruct (pal !! (i mod length pal)%nat) as [c|] eqn:E; [reflexivity|].
    apply lookup_ge_None in E.
    assert (length pal <> 0)%nat by (destruct pal; simpl; [congruence|lia]).
    pose proof (Nat.mod_upper_bound i (length pal)). lia.
  - rewrite colorMap_start, Hcustom. reflexivity.
  - intros j Hj. apply list_elem_of_lookup in Hj. destruct Hj as [j' Hj'].
    rewrite lookup_take_Some in Hj'. destruct Hj' as [Hj' Hlt].
    unfold l in Hj'. rewrite list_lookup_imap in Hj'.
    destruct (order !! j') as [k'|] eqn:E; [|discriminate].
    simpl in Hj'. injection Hj' as <- ->. exact (Hfirst j' Hlt E).
Qed.

(** X12.  A key of the order without a custom colour gets the palette
    colour of the index of its first occurrence, the palette being cycled:
    [palette[i % palette.length]].  The index counts every key of the
    order, those with a custom colour too. *)
Theorem colorScale_palette (order : list string)
        (customColors : option (gmap string string)) (palette : option (list string))
        (i : nat) (k : string) :
  paletteOrDefault palette <> [] ->
  customOf customColors k = None ->
  order !! i = Some k ->
  (forall j, (j < i)%nat -> order !! j <> Some k) ->
  createColorScale order customColors palette k
  = paletteOrDefault palette !! (i mod length (paletteOrDefault palette))%nat.
Proof.
  intros Hp Hcustom Hi Hfirst.
  rewrite (palette_lookup order customColors palette i k Hp Hcustom Hi Hfirst).
  reflexivity.
Qed.

Lemma colorScale_palette_witness :
  createColorScale ["a"; "b"; "c"; "d"; "e"; "f"; "g"]%string None None "g"
  = paletteOrDefault None !! (6 mod length (paletteOrDefault None))%nat.
Proof.
  apply (colorScale_palette ["a"; "b"; "c"; "d"; "e"; "f"; "g"]%string None
                            None 6 "g"%string).
  - discriminate.
  - reflexivity.
  - reflexivity.
  - intros j Hj. do 6 (destruct j as [|j]; [simpl; discriminate|]). lia.
Defined.

(** X13.  A key that is neither in the order nor among the custom colours
    gets the first colour of the palette. *)
Theorem colorScale_unknown (order : list string)
        (customColors : option (gmap string string)) (palette : option (list string))
        (k : string) :
  customOf customColors k = None -> k ∉ order ->
  createColorScale order customColors palette k = paletteOrDefault palette !! 0%nat.
Proof.
  intros Hcustom Hk. unfold createColorScale, colorMap.
  rewrite assign_absent; [reflexivity| |].
  - rewrite colorMap_start, Hcustom. reflexivity.
  - intros i Hi. apply list_elem_of_lookup in Hi. destruct Hi as [j Hj].
    rewrite list_lookup_imap in Hj.
    destruct (order !! j) as [k'|] eqn:E; [|discriminate].
    simpl in Hj. injection Hj as <- ->.
    apply Hk. eapply list_elem_of_lookup_2. exact E.
Qed.

Lemma colorScale_unknown_witness :
  createColorScale ["a"; "b"]%string None None "zz"
  = paletteOrDefault None !! 0%nat.
Proof.
  apply (colorScale_unknown ["a"; "b"]%string None None "zz"%string).
  - reflexivity.
  - intros H. apply list_elem_of_In in H. simpl in H. intuition discriminate.
Defined.

(** X14.  Without custom colours and with the default palette, up to six
    different series keys get six different colours. *)
Theorem colorScale_default_distinct (order : list string) (i j : nat) (k1 k2 : string) :
  NoDup order -> (length order <= 6)%nat ->
  order !! i = Some k1 -> order !! j = Some k2 -> i <> j ->
  createColorScale order None None k1 <> createColorScale order None None k2.
Proof.
  intros Hnd Hlen Hi Hj Hij.
  assert (Hfirst : forall n k, order !! n = Some k ->
                     forall m, (m < n)%nat -> order !! m <> Some k).
  { intros n k Hn m Hm Hmk. pose proof (NoDup_lookup order n m k Hnd Hn Hmk). lia. }
  rewrite (palette_lookup order None None i k1);
    [|discriminate|reflexivity|exact Hi|exact (Hfirst i k1 Hi)].
  rewrite (palette_lookup order None None j k2);
    [|discriminate|reflexivity|exact Hj|exact (Hfirst j k2 Hj)].
  assert (Hi6 : (i < 6)%nat) by (apply lookup_lt_Some in Hi; lia).
  assert (Hj6 : (j < 6)%nat) by (apply lookup_lt_Some in Hj; lia).
  change (paletteOrDefault None) with DEFAULT_PALETTE.
  change (length DEFAULT_PALETTE) with 6%nat.
  rewrite !Nat.mod_small by lia.
  assert (Hp : NoDup DEFAULT_PALETTE).
  { apply (bool_decide_unpack _). vm_compute. exact I. }
  destruct (lookup_lt_is_Some_2 DEFAULT_PALETTE i Hi6) as [c Hc].
  rewrite Hc. intros Heq. symmetry in Heq.
  apply Hij. exact (NoDup_lookup DEFAULT_PALETTE i j c Hp Hc Heq).
Qed.

Lemma colorScale_default_distinct_witness :
  createColorScale ["plan"; "actual"]%string None None "plan"
  <> createColorScale ["plan"; "actual"]%string None None "actual".
Proof.
  apply (colorScale_default_distinct ["plan"; "actual"]%string 0 1).
  - apply (bool_decide_unpack _). vm_compute. exact I.
  - simpl. lia.
  - reflexivity.
  - reflexivity.
  - lia.
Defined.

End ColorScaleMore.

(** ** PieChart/PieChart.js *)

Module PieMore.
Import Js JsFacts Pie PieFacts PieArc Notions.

















(** X18.  The geometry [render] draws the sectors with: the centre is in
    the middle of the width, the inner radius is never negative, it is at
    most 95% of the outer radius and at most the outer radius less 2 when
    these are not negative, and it is 0 (a full pie) when
    [innerRadiusRatio] is not positive. *)
Theorem pie_radii (data : list PieDatum) (currentWidth height ratio : Q)
        (legendShow : bool) (cx cy radius innerR : Q) (slices : list Slice) :
  render data currentWidth height ratio legendShow
  = Sectors cx cy radius innerR slices ->
  slices = computeSlices data /\ slices <> [] /\
  cx == currentWidth / 2 /\
  0 <= innerR /\
  (0 <= radius -> innerR <= radius * (95 # 100)) /\
  (2 <= radius -> innerR <= radius - 2) /\
  (ratio <= 0 -> innerR == 0).
Proof.
  unfold render. destruct (length (computeSlices data) =? 0)%nat eqn:El;
    [discriminate|].
  intros H. injection H as <- <- <- <- <-.
  apply Nat.eqb_neq in El.
  split; [reflexivity|]. split; [intros E; rewrite E in El; simpl in El; lia|].
  split; [field|].
  set (radius := Math_min (currentWidth - 10 * 2)
                          (height - (if legendShow then 20 else 10) - 10) / 2).
  set (r := Math_max 0 (Math_min ratio (95 # 100))).
  assert (Hr0 : 0 <= r) by apply Math_max_ge_l.
  assert (Hr1 : r <= 95 # 100).
  { unfold r. destruct (Math_max_spec 0 (Math_min ratio (95 # 100))) as [[_ ->]|[_ ->]].
    - destruct (ScalesMore.Math_min_spec ratio (95 # 100)) as [[? ->]|[? ->]]; lra.
    - vm_compute. discriminate. }
  set (inner := Math_min (radius * r) (radius - 2)).
  split; [apply Math_max_ge_l|].
  split; [|split].
  - intros Hrad.
    assert (radius * r <= radius * (95 # 100)).
    { rewrite !(Qmult_comm radius). apply Qmult_le_compat_r; lra. }
    assert (0 <= radius * (95 # 100)) by (apply Qmult_le_0_compat; lra).
    destruct (Math_max_spec 0 inner) as [[_ ->]|[_ ->]]; [|lra].
    unfold inner.
    destruct (ScalesMore.Math_min_spec (radius * r) (radius - 2)) as [[? ->]|[? ->]]; lra.
  - intros Hrad.
    destruct (Math_max_spec 0 inner) as [[_ ->]|[_ ->]]; [|lra].
    unfold inner.
    destruct (ScalesMore.Math_min_spec (radius * r) (radius - 2)) as [[? ->]|[? ->]]; lra.
  - intros Hratio.
    assert (Hrz : r == 0).
    { unfold r. destruct (Math_max_spec 0 (Math_min ratio (95 # 100))) as [[Hle ->]|[_ ->]];
        [|reflexivity].
      destruct (ScalesMore.Math_min_spec ratio (95 # 100)) as [[? E]|[? E]];
        rewrite E in *; lra. }
    destruct (Math_max_spec 0 inner) as [[Hle ->]|[_ ->]]; [|reflexivity].
    unfold inner in *.
    destruct (ScalesMore.Math_min_spec (radius * r) (radius - 2)) as [[? E]|[? E]];
      rewrite E in *.
    + rewrite Hrz. ring.
    + assert (radius * r == 0) by (rewrite Hrz; ring). lra.
Qed.

Lemma pie_radii_witness :
  exists cx cy radius innerR slices,
    render [ {| label := "A"; value := Finite 30 |} ] 640 360 (6 # 10) true
    = Sectors cx cy radius innerR slices /\
    cx == 640 / 2 /\ 0 <= innerR /\
    (0 <= radius -> innerR <= radius * (95 # 100)).
Proof.
  do 5 eexists.
  assert (H : render [ {| label := "A"; value := Finite 30 |} ] 640 360 (6 # 10) true
              = Sectors _ _ _ _ _) by (vm_compute; reflexivity).
  split; [exact H|].
  destruct (pie_radii _ _ _ _ _ _ _ _ _ _ H) as (_ & _ & Hcx & H0 & H95 & _).
  split; [exact Hcx|]. split; [exact H0|exact H95].
Defined.

End PieMore.

(** ** core/ChartWrapper.js *)

Module WrapperMore.
Import Js JsFacts ChartWrapper WrapperFacts WrapperClaims Notions.

Lemma one_timer_100_one (s : Wrapper) : one_timer_100 s -> one_timer s.
Proof.
  intros [H|(id & r & H1 & H2 & H3 & _)]; [left; exact H|].
  right. exists id, r. auto.
Qed.

Section Invariant.

Variable s0 : Wrapper.
Variable W : Q -> Prop.
Hypothesis W_clamp : forall w, W (clampWidth s0 w).

Lemma inv_doRender (s : Wrapper) :
  wrapper_inv s0 W s -> wrapper_inv s0 W (doRender s).
Proof.
  intros (Hc & Ht & Hw & Hcalls). split; [exact Hc|]. split; [exact Ht|].
  split; [exact Hw|]. simpl. apply Forall_app. split; [exact Hcalls|].
  constructor; [|constructor]. simpl. split; [exact Hw|].
  destruct Hc as (Hp & Hh & _). unfold renderCall. rewrite Hp, Hh. reflexivity.
Qed.

Lemma inv_onEntry (s : Wrapper) (w : Q) :
  wrapper_inv s0 W s -> wrapper_inv s0 W (onEntry s w).
Proof.
  intros Hinv.
  destruct (Qeq_dec (clampWidth s w) (currentWidth s)) as [He|Hne].
  - rewrite onEntry_same by exact He. exact Hinv.
  - destruct Hinv as (Hc & Ht & Hw & Hcalls).
    destruct (onEntry_change s w (one_timer_100_one s Ht) Hne)
      as (Hc' & _ & Hw' & Hcalls' & id & Htm & Hr).
    split; [eapply same_config_trans; eauto|].
    split; [right; exists id, 100%nat; repeat split; auto; lia|].
    split; [rewrite Hw', (clampWidth_config s0 s w Hc); apply W_clamp|].
    rewrite Hcalls'. exact Hcalls.
Qed.

Lemma inv_elapse (s : Wrapper) (ms : nat) :
  wrapper_inv s0 W s -> wrapper_inv s0 W (elapse s ms).
Proof.
  intros (Hc & Ht & Hw & Hcalls).
  destruct Ht as [Hq|(id & r & Hq & Hr & Hpos & Hle)].
  - destruct (elapse_idle s ms Hq) as (Hc' & _ & Hw' & Hcalls' & Hq' & _).
    split; [eapply same_config_trans; eauto|]. split; [left; exact Hq'|].
    split; [rewrite Hw'; exact Hw|rewrite Hcalls'; exact Hcalls].
  - destruct (le_lt_dec r ms) as [Hdue|Hwait].
    + destruct (elapse_due s id r ms Hq Hdue) as (Hc' & _ & Hw' & Hcalls' & Hq' & _).
      split; [eapply same_config_trans; eauto|]. split; [left; exact Hq'|].
      split; [rewrite Hw'; exact Hw|]. rewrite Hcalls'.
      apply Forall_app. split; [exact Hcalls|]. constructor; [|constructor].
      simpl. split; [exact Hw|].
      destruct Hc as (Hp & Hh & _). unfold renderCall. rewrite Hp, Hh. reflexivity.
    + destruct (elapse_waiting s id r ms Hq Hwait)
        as (Hc' & _ & Hw' & Hcalls' & Hq' & Hr').
      split; [eapply same_config_trans; eauto|].
      split; [right; exists id, (r - ms)%nat; repeat split; auto; try congruence; lia|].
      split; [rewrite Hw'; exact Hw|rewrite Hcalls'; exact Hcalls].
Qed.

Lemma inv_step (s : Wrapper) (e : Event) :
  wrapper_inv s0 W s -> wrapper_inv s0 W (step s e).
Proof.
  intros Hinv. destruct e as [entries|ms| |]; simpl.
  - unfold onResize. destruct (observing s); [|exact Hinv].
    revert s Hinv. induction entries as [|w entries IH]; intros s Hinv; simpl;
      [exact Hinv|]. apply IH, inv_onEntry, Hinv.
  - apply inv_elapse, Hinv.
  - apply inv_doRender, Hinv.
  - exact Hinv.
Qed.

Lemma inv_run (es : list Event) :
  forall s, wrapper_inv s0 W s -> wrapper_inv s0 W (run s es).
Proof.
  induction es as [|e es IH]; intros s Hinv; simpl; [exact Hinv|].
  apply IH, inv_step, Hinv.
Qed.

End Invariant.

Lemma inv_created (o : Options) (rectWidth : Q) (W : Q -> Prop) :
  let s0 := createChartWrapper o rectWidth in
  W (currentWidth s0) -> wrapper_inv s0 W s0.
Proof.
  intros s0 Hw. split; [apply same_config_refl|]. split; [left; reflexivity|].
  split; [exact Hw|]. simpl. constructor; [|constructor]. simpl.
  split; [exact Hw|reflexivity].
Qed.

(** X19.  Whatever happens to a wrapper after its creation, at most one
    timeout is pending, with at most 100 ms to run; time passing causes at
    most one render, and once 100 ms have passed without an event no
    timeout is pending and further waiting renders nothing. *)
Theorem wrapper_single_timer (o : Options) (rectWidth : Q) (es : list Event)
        (d d' : nat) :
  let s := run (createChartWrapper o rectWidth) es in
  (length (timers s) <= 1)%nat /\
  Forall (fun t => (snd t <= 100)%nat) (timers s) /\
  (length (calls (elapse s d)) <= S (length (calls s)))%nat /\
  ((100 <= d)%nat ->
   timers (elapse s d) = [] /\
   calls (elapse (elapse s d) d') = calls (elapse s d)).
Proof.
  intros s.
  assert (Hinv : wrapper_inv (createChartWrapper o rectWidth) (fun _ => True) s).
  { apply inv_run; [auto|]. apply inv_created. exact I. }
  destruct Hinv as (_ & Ht & _ & _).
  destruct Ht as [Hq|(id & r & Hq & Hr & Hpos & Hle)].
  - rewrite Hq. split; [simpl; lia|]. split; [constructor|].
    destruct (elapse_idle s d Hq) as (_ & _ & _ & Hcalls & Hq' & _).
    split; [rewrite Hcalls; lia|]. intros _. split; [exact Hq'|].
    apply (elapse_idle (elapse s d) d' Hq').
  - rewrite Hq. split; [simpl; lia|]. split; [constructor; [exact Hle|constructor]|].
    split.
    + destruct (le_lt_dec r d) as [Hdue|Hwait].
      * destruct (elapse_due s id r d Hq Hdue) as (_ & _ & _ & Hcalls & _).
        rewrite Hcalls, length_app. simpl. lia.
      * destruct (elapse_waiting s id r d Hq Hwait) as (_ & _ & _ & Hcalls & _).
        rewrite Hcalls. lia.
    + intros Hd.
      destruct (elapse_due s id r d Hq ltac:(lia)) as (_ & _ & _ & _ & Hq' & _).
      split; [exact Hq'|]. apply (elapse_idle (elapse s d) d' Hq').
Qed.

Lemma wrapper_single_timer_witness :
  let s := run (createChartWrapper responsive 640) [Resize [500]; Elapse 40] in
  timers (elapse s 100) = [] /\
  calls (elapse (elapse s 100) 500) = calls (elapse s 100).
Proof.
  apply (proj2 (proj2 (proj2
          (wrapper_single_timer responsive 640 [Resize [500]; Elapse 40] 100 500)))).
  lia.
Defined.

Lemma created_fixed (o : Options) (rectWidth w : Q) :
  width o = Some w -> ~ w == 0 ->
  let s0 := createChartWrapper o rectWidth in
  observing s0 = false /\ timers s0 = [] /\ currentWidth s0 = w /\
  calls s0 = [renderCall s0 w].
Proof.
  intros Hw Hne. unfold createChartWrapper. rewrite Hw. simpl.
  assert (E : Qeq_bool w 0 = false).
  { destruct (Qeq_bool w 0) eqn:E; [|reflexivity].
    apply Qeq_bool_iff in E. contradiction. }
  rewrite E. simpl. repeat split.
Qed.

Lemma fixed_run (w : Q) (es : list Event) :
  forall s : Wrapper,
    observing s = false -> timers s = [] -> currentWidth s = w ->
    let s' := run s es in
    currentWidth s' = w /\
    (exists n, calls s' = calls s ++ repeat (renderCall s w) n) /\
    (Forall (fun e => e <> Update) es -> calls s' = calls s).
Proof.
  induction es as [|e es IH]; intros s Ho Hq Hw; cbv zeta.
  - split; [exact Hw|]. split; [exists 0%nat; simpl; rewrite app_nil_r|]; reflexivity.
  - assert (Hstep : observing (step s e) = false /\ timers (step s e) = [] /\
                    currentWidth (step s e) = w /\ same_config s (step s e) /\
                    (calls (step s e) = calls s \/
                     (e = Update /\ calls (step s e) = calls s ++ [renderCall s w]))).
    { destruct e as [entries|ms| |]; simpl.
      - unfold onResize. rewrite Ho. repeat split; auto.
      - destruct (elapse_idle s ms Hq) as (Hc & Ho' & Hw' & Hcalls & Hq' & _).
        repeat split; try apply Hc; try congruence. left. exact Hcalls.
      - repeat split; auto. right. split; [reflexivity|].
        simpl. rewrite Hw. reflexivity.
      - repeat split; auto. }
    destruct Hstep as (Ho' & Hq' & Hw' & Hc & Hcalls).
    destruct (IH (step s e) Ho' Hq' Hw') as (Hw'' & (n & Hn) & Hno).
    change (run s (e :: es)) with (run (step s e) es).
    rewrite (renderCall_config s (step s e) w Hc) in Hn.
    split; [exact Hw''|]. split.
    + destruct Hcalls as [E|[_ E]]; rewrite E in Hn.
      * exists n. exact Hn.
      * exists (S n). rewrite Hn, <- app_assoc. reflexivity.
    + intros Hall. inversion Hall as [|? ? He Hall']; subst.
      rewrite (Hno Hall'). destruct Hcalls as [E|[E _]]; [exact E|contradiction].
Qed.

(** X20.  With a fixed width (a [width] option that is not 0) the wrapper
    renders once on creation, at that width whatever the container
    measures; afterwards the stored width never changes, every later
    render is at the same width, and nothing but [update()] renders again:
    resize notifications and the passing of time do not. *)
Theorem fixed_width_wrapper (o : Options) (rectWidth w : Q) (es : list Event) :
  width o = Some w -> ~ w == 0 ->
  let s0 := createChartWrapper o rectWidth in
  let s := run s0 es in
  calls s0 = [renderCall s0 w] /\
  currentWidth s = w /\
  Forall (fun c => outerW c = w) (calls s) /\
  (Forall (fun e => e <> Update) es -> calls s = calls s0).
Proof.
  intros Hw Hne s0 s.
  destruct (created_fixed o rectWidth w Hw Hne) as (Ho & Hq & Hcw & Hcalls).
  fold s0 in Ho, Hq, Hcw, Hcalls.
  destruct (fixed_run w es s0 Ho Hq Hcw) as (Hw' & (n & Hn) & Hno).
  fold s in Hw', Hn, Hno.
  split; [exact Hcalls|]. split; [exact Hw'|]. split; [|exact Hno].
  rewrite Hn, Hcalls. apply Forall_app. split.
  - constructor; [reflexivity|constructor].
  - apply Forall_forall. intros c Hc. apply list_elem_of_In, repeat_spec in Hc.
    rewrite Hc. reflexivity.
Qed.

Lemma fixed_width_wrapper_witness :
  let o := {| width := Some 400; height := None; framePadding := None;
              minWidth := None; defaultWidth := None |} in
  let s0 := createChartWrapper o 900 in
  let s := run s0 [Resize [700]; Elapse 100; Update; Resize [300]; Elapse 250] in
  calls s0 = [renderCall s0 400] /\
  currentWidth s = 400 /\
  Forall (fun c => outerW c = 400) (calls s) /\
  (Forall (fun e => e <> Update)
          [Resize [700]; Elapse 100; Update; Resize [300]; Elapse 250] ->
   calls s = calls s0).
Proof.
  apply (fixed_width_wrapper
           {| width := Some 400; height := None; framePadding := None;
              minWidth := None; defaultWidth := None |} 900 400).
  - reflexivity.
  - intros H. vm_compute in H. discriminate.
Defined.

(** X21.  In responsive mode, when the container measures a positive
    width at creation, the stored width and the width of every render are
    never below [minWidth], whatever widths the notifications carry. *)
Theorem responsive_width_floor (o : Options) (rectWidth : Q) (es : list Event) :
  not_width (width o) = true -> 0 < rectWidth ->
  let s := run (createChartWrapper o rectWidth) es in
  let minW := or_default (minWidth o) 320 in
  minW <= currentWidth s /\
  Forall (fun c => minW <= outerW c) (calls s).
Proof.
  intros Hnw Hrect s minW.
  set (s0 := createChartWrapper o rectWidth).
  assert (Hmin : w_minWidth s0 = minW) by reflexivity.
  assert (Hcw : minW <= currentWidth s0).
  { unfold s0, createChartWrapper. simpl. rewrite Hnw.
    apply lt_true in Hrect. rewrite Hrect. simpl. apply Math_max_ge_r. }
  assert (Hinv : wrapper_inv s0 (fun x => minW <= x) s).
  { apply inv_run.
    - intros w. unfold clampWidth. rewrite Hmin. apply Math_max_ge_r.
    - apply inv_created. exact Hcw. }
  destruct Hinv as (_ & _ & Hw & Hcalls). split; [exact Hw|].
  eapply Forall_impl; [exact Hcalls|]. simpl. intros c [H _]. exact H.
Qed.

Lemma responsive_width_floor_witness :
  let s := run (createChartWrapper responsive 200)
               [Resize [100]; Elapse 100; Resize [500]; Elapse 100; Resize [10]] in
  320 <= currentWidth s /\ Forall (fun c => 320 <= outerW c) (calls s).
Proof.
  apply (responsive_width_floor responsive 200); reflexivity.
Defined.

(** Every invocation of [render], whatever caused it, gets the same
    inner height, [height - top - bottom], and an inner width that is the
    width of the [svg] less the left and right padding; neither is clamped
    at 0. *)
Lemma render_context (o : Options) (rectWidth : Q) (es : list Event) :
  let pad := mergePadding (framePadding o) in
  Forall (fun c =>
            innerWidth c = outerW c - left pad - right pad /\
            innerHeight c = or_default (height o) 360 - top pad - bottom pad)
         (calls (run (createChartWrapper o rectWidth) es)).
Proof.
  intros pad. set (s0 := createChartWrapper o rectWidth).
  assert (Hinv : wrapper_inv s0 (fun _ => True) (run s0 es)).
  { apply inv_run; [auto|]. apply inv_created. exact I. }
  destruct Hinv as (_ & _ & _ & Hcalls).
  eapply Forall_impl; [exact Hcalls|]. simpl. intros c [_ ->]. split; reflexivity.
Qed.

(** X22.  While a debounced render is pending, only a notification that
    changes the stored width restarts the 100 ms.  A notification whose
    clamped width is the stored one leaves the timeout as it is, so the
    render happens when the remaining time has passed; a notification with
    a new clamped width puts the render off to 100 ms after it. *)
Theorem debounce_restart (s : Wrapper) (id : positive) (r : nat) (w : Q) :
  observing s = true ->
  timers s = [(id, r)] -> resizeTimer s = Some id -> (0 < r)%nat -> (r < 100)%nat ->
  (clampWidth s w == currentWidth s ->
   calls (run s [Resize [w]; Elapse r])
   = calls s ++ [renderCall s (currentWidth s)]) /\
  (~ clampWidth s w == currentWidth s ->
   calls (run s [Resize [w]; Elapse r]) = calls s /\
   calls (run s [Resize [w]; Elapse 100])
   = calls s ++ [renderCall s (clampWidth s w)]).
Proof.
  intros Hobs Hq Hr Hpos Hlt.
  assert (Hrun : forall d, run s [Resize [w]; Elapse d] = elapse (onEntry s w) d).
  { intros d. simpl. unfold onResize. rewrite Hobs. reflexivity. }
  split.
  - intros Heq. rewrite Hrun, (onEntry_same s w Heq).
    apply (elapse_due s id r r Hq (le_n _)).
  - intros Hne. rewrite !Hrun.
    assert (Hinv : one_timer s) by (right; exists id, r; auto).
    destruct (onEntry_change s w Hinv Hne) as (Hc & _ & Hw & Hcalls & id' & Ht & _).
    split.
    + destruct (elapse_waiting (onEntry s w) id' 100 r Ht Hlt) as (_ & _ & _ & H & _).
      congruence.
    + destruct (elapse_due (onEntry s w) id' 100 100 Ht (le_n _))
        as (_ & _ & _ & H & _).
      rewrite H, Hcalls, Hw. rewrite (renderCall_config s _ _ Hc). reflexivity.
Qed.

Lemma debounce_restart_witness :
  let s := run (createChartWrapper responsive 640) [Resize [500]; Elapse 60] in
  calls (run s [Resize [500]; Elapse 40])
  = calls s ++ [renderCall s (currentWidth s)].
Proof.
  apply (proj1 (debounce_restart
                  (run (createChartWrapper responsive 640) [Resize [500]; Elapse 60])
                  1%positive 40 500 eq_refl eq_refl eq_refl ltac:(lia) ltac:(lia))).
  reflexivity.
Defined.

(** X23.  [update()] renders at once with the stored width and does not
    touch a pending timeout: when a debounced render is pending, the
    pending render still happens, so the same width is rendered twice. *)
Theorem update_keeps_timeout (s : Wrapper) (id : positive) (r d : nat) :
  timers s = [(id, r)] -> (r <= d)%nat ->
  timers (update s) = [(id, r)] /\
  calls (update s) = calls s ++ [renderCall s (currentWidth s)] /\
  calls (run s [Update; Elapse d])
  = calls s ++ [renderCall s (currentWidth s); renderCall s (currentWidth s)].
Proof.
  intros Hq Hd. split; [exact Hq|]. split; [reflexivity|].
  change (run s [Update; Elapse d]) with (elapse (update s) d).
  destruct (elapse_due (update s) id r d Hq Hd) as (_ & _ & _ & H & _).
  rewrite H. simpl. rewrite <- app_assoc. reflexivity.
Qed.

Lemma update_keeps_timeout_witness :
  let s := run (createChartWrapper responsive 640) [Resize [500]; Elapse 60] in
  timers (update s) = [(1%positive, 40%nat)] /\
  calls (update s) = calls s ++ [renderCall s (currentWidth s)] /\
  calls (run s [Update; Elapse 40])
  = calls s ++ [renderCall s (currentWidth s); renderCall s (currentWidth s)].
Proof.
  apply (update_keeps_timeout
           (run (createChartWrapper responsive 640) [Resize [500]; Elapse 60])
           1%positive 40 40); [reflexivity|lia].
Defined.

End WrapperMore.

(** ** The [render] callbacks of the bar and line charts *)

Module ChartsMore.
Import Js JsFacts Scales ScalesFacts Ticks Charts.





(** The largest value is one of the values, or 0. *)
Lemma foldr_max_attained (values : list Q) :
  foldr Math_max 0 values = 0 \/ foldr Math_max 0 values ∈ values.
Proof.
  induction values as [|v values IH]; simpl; [left; reflexivity|].
  destruct (Math_max_spec v (foldr Math_max 0 values)) as [[_ ->]|[_ ->]].
  - destruct IH as [IH|IH]; [left; exact IH|right; apply elem_of_cons; right; exact IH].
  - right. apply elem_of_cons. left. reflexivity.
Qed.












(** The keys collected so far stay, in their order, and a new key goes to
    the end. *)
Lemma uniqueKeys_acc (keys : list string) :
  forall acc : list string,
    NoDup acc ->
    let r := foldl (fun acc k => if bool_decide (k ∈ acc) then acc else acc ++ [k])
                   acc keys in
    NoDup r /\ (forall k, k ∈ r <-> k ∈ acc \/ k ∈ keys) /\
    (NoDup (acc ++ keys) -> r = acc ++ keys) /\
    (acc <> [] -> head r = head acc).
Proof.
  induction keys as [|k keys IH]; intros acc Hnd; cbv zeta; simpl.
  - split; [exact Hnd|]. split; [|split].
    + intros k. rewrite elem_of_nil. tauto.
    + intros _. rewrite app_nil_r. reflexivity.
    + reflexivity.
  - destruct (bool_decide (k ∈ acc)) eqn:E.
    + apply bool_decide_eq_true in E.
      destruct (IH acc Hnd) as (H1 & H2 & _ & H4).
      split; [exact H1|]. split; [|split; [|exact H4]].
      * intros k'. rewrite H2, elem_of_cons. split; [tauto|].
        intros [H|[->|H]]; tauto.
      * intros Hdup. apply NoDup_app in Hdup. destruct Hdup as (_ & Hdisj & _).
        exfalso. apply (Hdisj k E). apply elem_of_cons. left. reflexivity.
    + apply bool_decide_eq_false in E.
      assert (Hnd' : NoDup (acc ++ [k])).
      { apply NoDup_app. split; [exact Hnd|]. split; [|apply NoDup_singleton].
        intros x Hx Hxk. apply list_elem_of_singleton in Hxk. subst. contradiction. }
      destruct (IH (acc ++ [k]) Hnd') as (H1 & H2 & H3 & H4).
      split; [exact H1|]. split; [|split].
      * intros k'. rewrite H2, elem_of_app, list_elem_of_singleton, elem_of_cons. tauto.
      * intros Hdup. rewrite <- app_assoc in H3. simpl in H3. apply H3. exact Hdup.
      * intros Hne. rewrite H4 by (destruct acc; discriminate).
        destruct acc; [congruence|reflexivity].
Qed.

Lemma uniqueKeys_spec (l : list string) :
  NoDup (uniqueKeys l) /\
  (forall k, k ∈ uniqueKeys l <-> k ∈ l) /\
  head (uniqueKeys l) = head l /\
  (NoDup l -> uniqueKeys l = l).
Proof.
  destruct (uniqueKeys_acc l [] (NoDup_nil_2)) as (H1 & H2 & H3 & _).
  fold (uniqueKeys l) in H1, H2, H3.
  split; [exact H1|]. split; [|split; [|exact H3]].
  - intros k. rewrite H2, elem_of_nil. tauto.
  - unfold uniqueKeys. destruct l as [|k0 rest]; [reflexivity|]. simpl.
    destruct (uniqueKeys_acc rest [k0] (NoDup_singleton k0)) as (_ & _ & _ & H4).
    apply H4. discriminate.
Qed.

(** X27.  When no [seriesOrder] is given, the series keys are the keys of
    the records' [values], each exactly once: the list has no duplicates,
    it holds a key exactly when some record has it, it starts with the
    first key of the data, and keys that are already unique are kept as
    they are, in their order. *)
Theorem inferred_keys (data : list GroupDatum) :
  let all := flat_map (fun d => map fst (g_values d)) data in
  let keys := inferredKeys None data in
  NoDup keys /\
  (forall k, k ∈ keys <-> exists d, d ∈ data /\ k ∈ map fst (g_values d)) /\
  head keys = head all /\
  (NoDup all -> keys = all).
Proof.
  cbv zeta. unfold inferredKeys.
  destruct (uniqueKeys_spec (flat_map (fun d => map fst (g_values d)) data))
    as (H1 & H2 & H3 & H4).
  split; [exact H1|]. split; [|split; [exact H3|exact H4]].
  intros k. rewrite H2, list_elem_of_In, in_flat_map. split.
  - intros (d & Hd & Hk). exists d. rewrite !list_elem_of_In. auto.
  - intros (d & Hd & Hk). exists d. rewrite <- !list_elem_of_In. auto.
Qed.

Lemma inferred_keys_witness :
  let data := [ {| g_label := "2022"; g_values := [("plan", 60)]%string |};
                {| g_label := "2023"; g_values := [("actual", 64)]%string |} ] in
  inferredKeys None data = flat_map (fun d => map fst (g_values d)) data.
Proof.
  apply (proj2 (proj2 (proj2 (inferred_keys
    [ {| g_label := "2022"; g_values := [("plan", 60)]%string |};
      {| g_label := "2023"; g_values := [("actual", 64)]%string |} ])))).
  apply (bool_decide_unpack _). vm_compute. exact I.
Defined.







End ChartsMore.
